(** * GIMP excerpt: action search dialog and GimpConfig interface

    A shallow embedding of
    - [app/dialogs/action-search-dialog.c]: the keyword matcher
      [action_search_match_keyword], the ranked insertion
      [action_search_add_to_results_list] and the driver
      [action_search_history_and_actions];
    - [libgimpconfig/gimpconfig-iface.c]: the (de)serialization entry
      points, the dispatchers and the default property-wise equality.

    C strings are [string] (byte strings), [gint] and [gunichar] are [Z],
    NULL-terminated [gchar **] vectors are lists, nullable pointers are
    [option].  Functions of GLib, GTK and of GIMP files outside this
    excerpt are fields of the classes [GLibText], [ActionEnv] and
    [ConfigEnv]: every theorem holds for all their implementations, and
    small ASCII instances are given to evaluate the code on examples. *)

From Stdlib Require Import List ZArith String Ascii Bool Lia Sorted.
From Stdlib Require Import Permutation.
Import ListNotations.
Local Open Scope string_scope.
Local Open Scope list_scope.
Local Open Scope Z_scope.

(* ================================================================== *)
(** * Part I: definitions                                              *)
(* ================================================================== *)

Definition gint := Z.
Definition gunichar := Z.

(** ** GLib text primitives used by the dialog *)

(** [g_str_tokenize_and_fold s locale] returns the folded tokens of [s]
    and, through its third argument, the ASCII alternates.  The
    [g_utf8_*] functions take the NUL-terminated UTF-8 string they are
    given.  [gimp_strip_uline] lives in app/widgets. *)
Class GLibText := {
  g_str_tokenize_and_fold : string -> string -> list string * list string;
  g_utf8_strlen : string -> Z;
  g_utf8_get_char : string -> gunichar;
  g_utf8_find_next_char : string -> string;
  gimp_strip_uline : string -> string;
  g_strstrip : string -> string
}.

(** [g_str_has_prefix (str, prefix)]: bytewise prefix test. *)
Definition g_str_has_prefix (str prefix : string) : bool :=
  String.prefix prefix str.

(** [g_strv_length] of a NULL-terminated vector. *)
Definition g_strv_length (v : list string) : Z := Z.of_nat (List.length v).

(** [v[i]] for an index below the length of the vector. *)
Definition strv_nth (v : list string) (i : nat) : string := nth i v EmptyString.

(** [g_utf8_strlen (v[0], -1)]: for an empty vector [v[0]] is the NULL
    terminator, for which [g_utf8_strlen] returns 0. *)
Definition g_utf8_strlen_first `{GLibText} (v : list string) : Z :=
  match v with
  | [] => 0
  | t :: _ => g_utf8_strlen t
  end.

(** ** The objects the dialog works on *)

Record Gimp := {
  config_language : string;          (* gimp->config->language *)
  config_search_show_unavailable : bool
}.

(** A [GtkAction] as the dialog observes it.  The label is a string:
    what the code does with a NULL label is decided by
    [gimp_strip_uline] and [g_str_tokenize_and_fold], outside this
    excerpt. *)
Record GtkAction := {
  gtk_action_get_name : string;
  gtk_action_get_label : string;
  gtk_action_get_tooltip : option string;
  gtk_action_is_sensitive : bool
}.

(** [if (section) *section = v;] on a nullable [gint *section]. *)
Definition set_section (section : option gint) (v : gint) : option gint :=
  match section with
  | Some _ => Some v
  | None => None
  end.

(** ** action_search_match_keyword *)

(** [for (j = 0; tokens[j] != NULL; j++)
       if (g_str_has_prefix (tokens[j], key)) goto found;]
    The result is [(true, j)] when the jump is taken and [(false, j)]
    with [j] the length of the vector when the loop runs out.  The
    counters [i] and [j] count tokens of one string and stay far from
    the ends of [gint]. *)
Fixpoint scan_tokens (tokens : list string) (key : string) (j : gint)
  : bool * gint :=
  match tokens with
  | [] => (false, j)
  | t :: rest =>
      if g_str_has_prefix t key then (true, j)
      else scan_tokens rest key (j + 1)
  end.

Record prefix_state := {
  ps_matched : bool;
  ps_previous_matched : gint;
  ps_match_start : bool;
  ps_match_ordered : bool
}.

(** One iteration of the loop over [key_tokens[i]] of the ordered-prefix
    block, up to and including the code after [one_matched:]. *)
Definition prefix_step (label_tokens label_alternates : list string)
    (i : gint) (key : string) (st : prefix_state) : prefix_state :=
  let '(found, j) :=
    match scan_tokens label_tokens key 0 with
    | (true, j) => (true, j)
    | (false, _) => scan_tokens label_alternates key 0
    end in
  {| ps_matched := if found then ps_matched st else false;
     ps_previous_matched := j;
     ps_match_start := if i =? j then ps_match_start st else false;
     ps_match_ordered :=
       if ps_previous_matched st >? j then false else ps_match_ordered st |}.

Fixpoint prefix_loop (label_tokens label_alternates key_tokens : list string)
    (i : gint) (st : prefix_state) : prefix_state :=
  match key_tokens with
  | [] => st
  | key :: rest =>
      prefix_loop label_tokens label_alternates rest (i + 1)
        (prefix_step label_tokens label_alternates i key st)
  end.

(** One iteration of the loop over the key tokens of the tooltip block;
    the state is [(matched, mixed_match)]. *)
Definition tooltip_step
    (tooltip_tokens tooltip_alternates label_tokens label_alternates
       : list string)
    (key : string) (st : bool * bool) : bool * bool :=
  let '(matched, mixed_match) := st in
  if fst (scan_tokens tooltip_tokens key 0) then (matched, mixed_match)
  else if fst (scan_tokens tooltip_alternates key 0) then (matched, mixed_match)
  else if fst (scan_tokens label_tokens key 0) then (matched, true)
  else if fst (scan_tokens label_alternates key 0) then (matched, true)
  else (false, mixed_match).

Fixpoint tooltip_loop
    (tooltip_tokens tooltip_alternates label_tokens label_alternates
       key_tokens : list string)
    (st : bool * bool) : bool * bool :=
  match key_tokens with
  | [] => st
  | key :: rest =>
      tooltip_loop tooltip_tokens tooltip_alternates
        label_tokens label_alternates rest
        (tooltip_step tooltip_tokens tooltip_alternates
           label_tokens label_alternates key st)
  end.

(** The three blocks of [action_search_match_keyword] after the
    tokenizations; each takes and returns [(matched, *section)]. *)

(** Lines 684-706: the two-letter initials heuristic. *)
Definition initials_block `{GLibText}
    (key_tokens label_tokens label_alternates : list string)
    (st : bool * option gint) : bool * option gint :=
  let '(matched, section) := st in
  if (g_strv_length key_tokens =? 1)
     && (g_utf8_strlen (strv_nth key_tokens 0) =? 2)
  then
    let c1 := g_utf8_get_char (strv_nth key_tokens 0) in
    let c2 := g_utf8_get_char (g_utf8_find_next_char (strv_nth key_tokens 0)) in
    if ((g_strv_length label_tokens >? 1)
        && (g_utf8_get_char (strv_nth label_tokens 0) =? c1)
        && (g_utf8_get_char (strv_nth label_tokens 1) =? c2))
       || ((g_strv_length label_alternates >? 1)
           && (g_utf8_get_char (strv_nth label_alternates 0) =? c1)
           && (g_utf8_get_char (strv_nth label_alternates 1) =? c2))
    then (true, set_section section 1)
    else (matched, section)
  else (matched, section).

(** Lines 708-754: ordered-prefix matching on the label. *)
Definition prefix_block
    (key_tokens label_tokens label_alternates : list string)
    (st : bool * option gint) : bool * option gint :=
  let '(matched, section) := st in
  if negb matched && (g_strv_length label_tokens >? 0) then
    let st' :=
      prefix_loop label_tokens label_alternates key_tokens 0
        {| ps_matched := true;
           ps_previous_matched := -1;
           ps_match_start := true;
           ps_match_ordered := true |} in
    (ps_matched st',
     if ps_matched st' then
       set_section section
         (if ps_match_ordered st'
          then (if ps_match_start st' then 1 else 2)
          else 3)
     else section)
  else (matched, section).

(** Lines 756-821: the tooltip fallback. *)
Definition tooltip_block `{GLibText} (action : GtkAction) (gimp : Gimp)
    (key_tokens label_tokens label_alternates : list string)
    (st : bool * option gint) : bool * option gint :=
  let '(matched, section) := st in
  match gtk_action_get_tooltip action with
  | Some tooltip =>
      if negb matched && (g_utf8_strlen_first key_tokens >? 2) then
        let '(tooltip_tokens, tooltip_alternates) :=
          g_str_tokenize_and_fold tooltip (config_language gimp) in
        if g_strv_length tooltip_tokens >? 0 then
          let '(matched', mixed_match) :=
            tooltip_loop tooltip_tokens tooltip_alternates
              label_tokens label_alternates key_tokens (true, false) in
          (matched',
           if matched' then set_section section (if mixed_match then 5 else 4)
           else section)
        else (matched, section)
      else (matched, section)
  | None => (matched, section)
  end.

(** [action_search_match_keyword (action, keyword, section, gimp)]:
    the returned boolean and the final content of [*section]
    ([None] when [section] is NULL). *)
Definition action_search_match_keyword `{GLibText}
    (action : GtkAction) (keyword : option string)
    (section : option gint) (gimp : Gimp) : bool * option gint :=
  match keyword with
  | None => (true, set_section section 0)
  | Some kw =>
      let key_tokens :=
        fst (g_str_tokenize_and_fold kw (config_language gimp)) in
      let tmp := gimp_strip_uline (gtk_action_get_label action) in
      let '(label_tokens, label_alternates) :=
        g_str_tokenize_and_fold tmp (config_language gimp) in
      tooltip_block action gimp key_tokens label_tokens label_alternates
        (prefix_block key_tokens label_tokens label_alternates
           (initials_block key_tokens label_tokens label_alternates
              (false, section)))
  end.

(** ** An ASCII implementation of the text primitives

    For ASCII input [g_str_tokenize_and_fold] splits at the characters
    that are not alphanumeric, folds the case and leaves the alternates
    empty; a character is a byte. *)

Definition ascii_is_upper (c : ascii) : bool :=
  ((65 <=? nat_of_ascii c) && (nat_of_ascii c <=? 90))%nat.

Definition ascii_is_alnum (c : ascii) : bool :=
  (((48 <=? nat_of_ascii c) && (nat_of_ascii c <=? 57))
   || ((65 <=? nat_of_ascii c) && (nat_of_ascii c <=? 90))
   || ((97 <=? nat_of_ascii c) && (nat_of_ascii c <=? 122)))%nat.

Definition ascii_fold (c : ascii) : ascii :=
  if ascii_is_upper c then ascii_of_nat (nat_of_ascii c + 32) else c.

Definition flush_word (word : string) : list string :=
  match word with
  | EmptyString => []
  | _ => [word]
  end.

Fixpoint split_words (is_word : ascii -> bool) (s word : string)
  : list string :=
  match s with
  | EmptyString => flush_word word
  | String c rest =>
      if is_word c
      then split_words is_word rest
             (word ++ String (ascii_fold c) EmptyString)%string
      else flush_word word ++ split_words is_word rest EmptyString
  end.

Definition ascii_split_words (s : string) : list string :=
  split_words ascii_is_alnum s EmptyString.

Fixpoint ascii_strip_uline (s : string) : string :=
  match s with
  | EmptyString => EmptyString
  | String c rest =>
      if Ascii.eqb c "_"%char then ascii_strip_uline rest
      else String c (ascii_strip_uline rest)
  end.

Fixpoint ascii_chug (s : string) : string :=
  match s with
  | String c rest => if Ascii.eqb c " "%char then ascii_chug rest else s
  | EmptyString => EmptyString
  end.

Definition string_rev (s : string) : string :=
  string_of_list_ascii (rev (list_ascii_of_string s)).

Definition ascii_text : GLibText := {|
  g_str_tokenize_and_fold := fun s _ => (ascii_split_words s, []);
  g_utf8_strlen := fun s => Z.of_nat (String.length s);
  g_utf8_get_char := fun s =>
    match s with
    | EmptyString => 0
    | String c _ => Z.of_nat (nat_of_ascii c)
    end;
  g_utf8_find_next_char := fun s =>
    match s with
    | EmptyString => EmptyString
    | String _ rest => rest
    end;
  gimp_strip_uline := ascii_strip_uline;
  g_strstrip := fun s => string_rev (ascii_chug (string_rev (ascii_chug s)))
|}.

(** ** A UTF-8 implementation for accented Latin letters

    Bytes from 128 on belong to words; a token with a two-byte letter of
    the Latin-1 supplement gets an alternate with the base letter. *)

Definition byte (c : ascii) : Z := Z.of_nat (nat_of_ascii c).

Definition utf8_is_continuation (c : ascii) : bool :=
  Z.land (byte c) 192 =? 128.

Fixpoint utf8_strlen (s : string) : Z :=
  match s with
  | EmptyString => 0
  | String c rest =>
      (if utf8_is_continuation c then 0 else 1) + utf8_strlen rest
  end.

Fixpoint utf8_skip_continuation (s : string) : string :=
  match s with
  | String c rest =>
      if utf8_is_continuation c then utf8_skip_continuation rest else s
  | EmptyString => EmptyString
  end.

Fixpoint utf8_continue (s : string) (acc : Z) : Z :=
  match s with
  | String c rest =>
      if utf8_is_continuation c
      then utf8_continue rest (Z.lor (Z.shiftl acc 6) (Z.land (byte c) 63))
      else acc
  | EmptyString => acc
  end.

Definition utf8_get_char (s : string) : gunichar :=
  match s with
  | EmptyString => 0
  | String c rest =>
      if byte c <? 128 then byte c
      else if byte c <? 224 then utf8_continue rest (Z.land (byte c) 31)
      else if byte c <? 240 then utf8_continue rest (Z.land (byte c) 15)
      else utf8_continue rest (Z.land (byte c) 7)
  end.

Definition latin_is_word (c : ascii) : bool :=
  ascii_is_alnum c || (128 <=? byte c).

(** The base letter of the character U+00C0 + [n - 128] whose second
    byte is [n], for the lower-case letters. *)
Definition latin_base (c : ascii) : ascii :=
  let n := byte c in
  if (160 <=? n) && (n <=? 165) then "a"%char
  else if n =? 167 then "c"%char
  else if (168 <=? n) && (n <=? 171) then "e"%char
  else if (172 <=? n) && (n <=? 175) then "i"%char
  else if (178 <=? n) && (n <=? 182) then "o"%char
  else if (185 <=? n) && (n <=? 188) then "u"%char
  else "?"%char.

Fixpoint latin_to_ascii (s : string) (lead : bool) : string :=
  match s with
  | EmptyString => EmptyString
  | String c rest =>
      if lead then String (latin_base c) (latin_to_ascii rest false)
      else if byte c =? 195 then latin_to_ascii rest true
      else String c (latin_to_ascii rest false)
  end.

Fixpoint string_forallb (p : ascii -> bool) (s : string) : bool :=
  match s with
  | EmptyString => true
  | String c rest => p c && string_forallb p rest
  end.

Definition latin_alternates (tokens : list string) : list string :=
  flat_map
    (fun t =>
       if string_forallb (fun c => byte c <? 128) t then []
       else
         let a := latin_to_ascii t false in
         if string_forallb ascii_is_alnum a then [a] else [])
    tokens.

Definition latin_text : GLibText := {|
  g_str_tokenize_and_fold := fun s _ =>
    let tokens := split_words latin_is_word s EmptyString in
    (tokens, latin_alternates tokens);
  g_utf8_strlen := utf8_strlen;
  g_utf8_get_char := utf8_get_char;
  g_utf8_find_next_char := fun s =>
    match s with
    | EmptyString => EmptyString
    | String _ rest => utf8_skip_continuation rest
    end;
  gimp_strip_uline := ascii_strip_uline;
  g_strstrip := fun s => string_rev (ascii_chug (string_rev (ascii_chug s)))
|}.

(** U+00E9, e with acute accent, in UTF-8. *)
Definition e_acute : string :=
  String (ascii_of_nat 195) (String (ascii_of_nat 169) EmptyString).

Definition mk_action (name label : string) (tooltip : option string)
  : GtkAction :=
  {| gtk_action_get_name := name;
     gtk_action_get_label := label;
     gtk_action_get_tooltip := tooltip;
     gtk_action_is_sensitive := true |}.

Definition gimp_en : Gimp :=
  {| config_language := "en"; config_search_show_unavailable := false |}.

Definition gaussian_blur : GtkAction :=
  mk_action "filters-gaussian-blur" "_Gaussian Blur..."
    (Some "Apply a gaussian blur").

(** "Flou d'ete", the last word with its accents. *)
Definition flou_ete : GtkAction :=
  mk_action "filters-flou-ete"
    ("Flou d'" ++ e_acute ++ "t" ++ e_acute)%string None.

Definition gamma_red_green : GtkAction :=
  mk_action "colors-gamma" "Gamma _Red Green" (Some "Apply a nice filter").

(** ** The results list *)

(** A row of the [GtkListStore].  The icon, markup and tooltip columns
    are display strings computed from the action and are left out. *)
Record Row := {
  COLUMN_ACTION : GtkAction;
  COLUMN_SENSITIVE : bool;
  COLUMN_SECTION : gint
}.

Record SearchDialog := {
  private_gimp : Gimp;
  results_list : list Row      (* the model of the tree view, top first *)
}.

(** The [while (TRUE)] loop of lines 496-512 with the iterator on [cur]
    and [rest] the rows below it. *)
Fixpoint results_insert_loop (row cur : Row) (rest : list Row) : list Row :=
  if COLUMN_SECTION cur >? COLUMN_SECTION row
  then row :: cur :: rest                 (* gtk_list_store_insert_before *)
  else
    match rest with
    | [] => [cur; row]                    (* gtk_list_store_append *)
    | next :: rest' => cur :: results_insert_loop row next rest'
    end.

Definition results_insert (row : Row) (store : list Row) : list Row :=
  match store with
  | [] => [row]                           (* no first iterator: append *)
  | first :: rest => results_insert_loop row first rest
  end.

(** Lines 426-535.  The test [! label || strlen (label) == 0] is on the
    stripped label, here a string. *)
Definition action_search_add_to_results_list `{GLibText}
    (action : GtkAction) (private : SearchDialog) (section : gint)
  : SearchDialog :=
  let label := g_strstrip (gimp_strip_uline (gtk_action_get_label action)) in
  if (String.length label =? 0)%nat then private
  else
    {| private_gimp := private_gimp private;
       results_list :=
         results_insert
           {| COLUMN_ACTION := action;
              COLUMN_SENSITIVE := gtk_action_is_sensitive action;
              COLUMN_SECTION := section |}
           (results_list private) |}.

(** What the driver takes from the rest of the application: the history
    search (app/widgets/gimpaction-history.c), the exclusion test, and
    for each action group of the <Image> UI manager its actions after
    [g_list_sort]. *)
Class ActionEnv := {
  gimp_action_history_search :
    Gimp ->
    (GtkAction -> option string -> option gint -> Gimp -> bool * option gint) ->
    option string -> list GtkAction;
  gimp_action_history_excluded_action : string -> bool;
  image_manager_action_groups : list (list GtkAction)
}.

(** The inner [for (list3 = history_actions; ...)] of lines 632-640. *)
Definition is_redundant (history_actions : list GtkAction) (name : string)
  : bool :=
  existsb (fun h => String.eqb (gtk_action_get_name h) name) history_actions.

(** Body of the loop over the actions of a group (lines 602-646);
    [uninit] is the indeterminate initial value of the local [section]. *)
Definition search_one_action `{GLibText} `{ActionEnv}
    (keyword : option string) (history_actions : list GtkAction)
    (uninit : gint) (private : SearchDialog) (action : GtkAction)
  : SearchDialog :=
  let name := gtk_action_get_name action in
  if gimp_action_history_excluded_action name
     && negb (String.eqb name "plug-in-repeat")
     && negb (String.eqb name "plug-in-reshow")
  then private
  else if negb (gtk_action_is_sensitive action)
          && negb (config_search_show_unavailable (private_gimp private))
  then private
  else
    match action_search_match_keyword action keyword (Some uninit)
            (private_gimp private) with
    | (true, section) =>
        if is_redundant history_actions name then private
        else action_search_add_to_results_list action private
               (match section with Some s => s | None => uninit end)
    | (false, _) => private
    end.

Definition action_search_history_and_actions `{GLibText} `{ActionEnv}
    (keyword : option string) (private : SearchDialog) (uninit : gint)
  : SearchDialog :=
  match keyword with
  | Some EmptyString => private           (* keyword is the empty string *)
  | _ =>
      let history_actions :=
        gimp_action_history_search (private_gimp private)
          action_search_match_keyword keyword in
      let private1 :=
        fold_left (fun p a => action_search_add_to_results_list a p 0)
          history_actions private in
      fold_left
        (fun p group =>
           fold_left (search_one_action keyword history_actions uninit)
             group p)
        image_manager_action_groups private1
  end.

(** ** Specification vocabulary for the matcher *)

(** [key] is a prefix of some token of [tokens]. *)
Definition prefix_of_some (tokens : list string) (key : string) : Prop :=
  exists t, In t tokens /\ g_str_has_prefix t key = true.

(** [p] is the position of the first token of [tokens] that [key] is a
    prefix of. *)
Definition first_match_at (tokens : list string) (key : string) (p : nat)
  : Prop :=
  (exists t, nth_error tokens p = Some t /\ g_str_has_prefix t key = true)
  /\ forall q t, (q < p)%nat -> nth_error tokens q = Some t ->
                 g_str_has_prefix t key = false.

(** The first two tokens of [tokens] start with [c1] and [c2]. *)
Definition initials_are `{GLibText} (c1 c2 : gunichar) (tokens : list string)
  : Prop :=
  exists t0 t1 rest,
    tokens = t0 :: t1 :: rest
    /\ g_utf8_get_char t0 = c1 /\ g_utf8_get_char t1 = c2.

(** The two-letter initials heuristic applies. *)
Definition two_letter_initials `{GLibText}
    (key_tokens label_tokens label_alternates : list string) : Prop :=
  exists k,
    key_tokens = [k] /\ g_utf8_strlen k = 2
    /\ (initials_are (g_utf8_get_char k)
          (g_utf8_get_char (g_utf8_find_next_char k)) label_tokens
        \/ initials_are (g_utf8_get_char k)
             (g_utf8_get_char (g_utf8_find_next_char k)) label_alternates).

(** One of the two label-based heuristics matches. *)
Definition label_heuristics_match `{GLibText}
    (key_tokens label_tokens label_alternates : list string) : Prop :=
  two_letter_initials key_tokens label_tokens label_alternates
  \/ (label_tokens <> []
      /\ Forall (prefix_of_some (label_tokens ++ label_alternates)) key_tokens).

(** The tooltip fallback matches: the first key token has more than two
    characters, the tooltip has tokens, and every key token is a prefix
    of a token of the tooltip or of the label. *)
Definition tooltip_fallback_matches `{GLibText}
    (key_tokens tooltip_tokens tooltip_alternates
       label_tokens label_alternates : list string) : Prop :=
  g_utf8_strlen_first key_tokens > 2
  /\ tooltip_tokens <> []
  /\ Forall
       (prefix_of_some
          (tooltip_tokens ++ tooltip_alternates
           ++ label_tokens ++ label_alternates))
       key_tokens.

(** [l] is 0, 1, 2, ...: position for position from the start. *)
Definition from_start (l : list nat) : Prop := l = seq 0 (List.length l).

(** The positions never go back. *)
Definition nondecreasing (l : list nat) : Prop := Sorted le l.

(** The flags [match_start] and [match_ordered] as the loop computes them
    from a list of matched positions, starting at key index [i] and with
    [prev] the previous matched position. *)
Fixpoint start_from (i : Z) (pos : list nat) : bool :=
  match pos with
  | [] => true
  | p :: rest => (i =? Z.of_nat p) && start_from (i + 1) rest
  end.

Fixpoint ordered_from (prev : Z) (pos : list nat) : bool :=
  match pos with
  | [] => true
  | p :: rest => negb (prev >? Z.of_nat p) && ordered_from (Z.of_nat p) rest
  end.

(** The store is ranked: sections never decrease from top to bottom. *)
(** A state [(matched, *section)] of the matcher whose section is one of
    the ranks 0 to 5 whenever [matched] is TRUE. *)
Definition section_in_range (st : bool * option gint) : Prop :=
  exists v, snd st = Some v /\ (fst st = true -> 0 <= v <= 5).

(** The row [action_search_add_to_results_list] builds. *)
Definition row_of (action : GtkAction) (section : gint) : Row :=
  {| COLUMN_ACTION := action;
     COLUMN_SENSITIVE := gtk_action_is_sensitive action;
     COLUMN_SECTION := section |}.

(** The test of lines 447-453: the stripped label is not empty. *)
Definition has_label `{GLibText} (action : GtkAction) : bool :=
  negb (String.length
          (g_strstrip (gimp_strip_uline (gtk_action_get_label action)))
        =? 0)%nat.

(** The rows of the history actions, in the order of the history. *)
Definition history_rows `{GLibText} `{ActionEnv}
    (keyword : option string) (gimp : Gimp) : list Row :=
  map (fun a => row_of a 0)
    (filter has_label
       (gimp_action_history_search gimp action_search_match_keyword keyword)).

(** The search dialog after [gtk_list_store_clear]. *)
Definition cleared (gimp : Gimp) : SearchDialog :=
  {| private_gimp := gimp; results_list := [] |}.

Definition section_le (r1 r2 : Row) : Prop :=
  COLUMN_SECTION r1 <= COLUMN_SECTION r2.

Definition ranked (store : list Row) : Prop := Sorted section_le store.

(** The state of the dialog while the driver runs: the rows of the
    history actions on top, then rows of sections 0 to 5, all ranked. *)
Definition history_on_top (gimp : Gimp) (top : list Row) (p : SearchDialog)
  : Prop :=
  private_gimp p = gimp
  /\ ranked (results_list p)
  /\ exists rest,
       results_list p = top ++ rest
       /\ Forall (fun r => 0 <= COLUMN_SECTION r) rest.

(** ** A small application to run the driver on *)

Definition blur_actions : list GtkAction :=
  [ mk_action "filters-blur" "_Blur" (Some "Simple blur");
    gaussian_blur;
    mk_action "filters-motion-blur" "_Motion Blur..." None;
    mk_action "filters-pixelize" "_Pixelize..." (Some "Blur by blocks");
    mk_action "filters-separator" "___" (Some "blur nothing") ].

Definition color_actions : list GtkAction :=
  [ gamma_red_green;
    mk_action "colors-blur-hue" "Hue of the Blur" None ].

(** The history holds two actions; the search keeps those that match. *)
Definition example_env : ActionEnv := {|
  gimp_action_history_search := fun gimp matches keyword =>
    filter (fun a => fst (matches a keyword None gimp))
      [ mk_action "filters-motion-blur" "_Motion Blur..." None;
        gamma_red_green ];
  gimp_action_history_excluded_action := fun name =>
    String.eqb name "filters-separator";
  image_manager_action_groups := [blur_actions; color_actions]
|}.

(* ------------------------------------------------------------------ *)
(** ** GimpConfig: objects, properties and the interface               *)
(* ------------------------------------------------------------------ *)

Definition GType := Z.
Definition gpointer := Z.
Definition GimpConfigWriter := Z.
Definition GScanner := Z.

Record GParamSpec := {
  pspec_name : string;
  pspec_flags : Z;
  pspec_value_type : GType;
  G_IS_PARAM_SPEC_OBJECT : bool
}.

(** A [GObject] with its address, its type and, for each property of its
    class, the param spec and the value [g_object_get_property] reads.
    A [GValue] holds an object pointer or any other data. *)
Inductive GObject : Type :=
| G_Object (address : Z) (g_type : GType) (props : list (GParamSpec * GValue))
with GValue : Type :=
| GV_data (d : Z)
| GV_object (o : option GObject).

Definition G_TYPE_FROM_INSTANCE (o : GObject) : GType :=
  match o with G_Object _ t _ => t end.

Definition object_props (o : GObject) : list (GParamSpec * GValue) :=
  match o with G_Object _ _ ps => ps end.

(** [g_object_class_list_properties (G_OBJECT_GET_CLASS (o), &n)]. *)
Definition g_object_class_list_properties (o : GObject) : list GParamSpec :=
  map fst (object_props o).

(** [g_value_init]: the zero value of the property's type. *)
Definition g_value_init (spec : GParamSpec) : GValue :=
  if G_IS_PARAM_SPEC_OBJECT spec then GV_object None else GV_data 0.

Fixpoint lookup_property (name : string) (ps : list (GParamSpec * GValue))
  : option GValue :=
  match ps with
  | [] => None
  | (spec, v) :: rest =>
      if String.eqb (pspec_name spec) name then Some v
      else lookup_property name rest
  end.

(** [g_value_init (&v, spec->value_type);
     g_object_get_property (o, spec->name, &v);] *)
Definition g_object_get_property (o : GObject) (spec : GParamSpec) : GValue :=
  match lookup_property (pspec_name spec) (object_props o) with
  | Some v => v
  | None => g_value_init spec
  end.

Definition g_value_get_object (v : GValue) : option GObject :=
  match v with
  | GV_object o => o
  | GV_data _ => None
  end.

(** The [equal] slot of an interface: the default installed by
    [gimp_config_iface_base_init], or an implementation of the class. *)
Inductive equal_slot : Type :=
| default_equal
| class_equal (f : GObject -> GObject -> bool).

Section Interface.
Variable World : Type.

(** The slots of [GimpConfigInterface] the modelled functions call;
    callbacks act on the state of the rest of the program. *)
Record GimpConfigInterface := {
  serialize :
    GObject -> GimpConfigWriter -> gpointer -> World -> bool * World;
  deserialize :
    GObject -> option GScanner -> gint -> gpointer -> World -> bool * World;
  equal : equal_slot
}.
End Interface.

Arguments serialize {World}.
Arguments deserialize {World}.
Arguments equal {World}.

(** What gimpconfig-iface.c takes from GObject and from the other files
    of libgimpconfig.  An [error] argument is [true] when a [GError **]
    location is supplied, and [error_is_set w] reads [*error != NULL]. *)
Class ConfigEnv := {
  World : Type;
  G_PARAM_READABLE : Z;
  GIMP_CONFIG_PARAM_AGGREGATE : Z;
  config_iface : GType -> option (GimpConfigInterface World);
  g_param_values_cmp : GParamSpec -> GValue -> GValue -> Z;
  error_is_set : World -> bool;
  gimp_config_writer_new_file :
    string -> bool -> option string -> bool -> World ->
    option GimpConfigWriter * World;
  gimp_config_writer_new_string : Z -> World -> GimpConfigWriter * World;
  gimp_config_writer_finish :
    GimpConfigWriter -> option string -> bool -> World -> bool * World;
  g_string_new : World -> Z * World;
  g_string_free : Z -> World -> string * World;
  gimp_scanner_new_file : string -> bool -> World -> option GScanner * World;
  gimp_scanner_new_gfile : Z -> bool -> World -> option GScanner * World;
  gimp_scanner_new_stream : Z -> bool -> World -> option GScanner * World;
  gimp_scanner_new_string :
    option string -> gint -> bool -> World -> option GScanner * World;
  gimp_scanner_destroy : option GScanner -> World -> World;
  g_object_freeze_notify : GObject -> World -> World;
  g_object_thaw_notify : GObject -> World -> World;
  G_IS_FILE : option Z -> bool;
  G_IS_INPUT_STREAM : option Z -> bool
}.

(** [GIMP_CONFIG_GET_INTERFACE] and [GIMP_IS_CONFIG]. *)
Definition GIMP_CONFIG_GET_INTERFACE `{ConfigEnv} (o : GObject)
  : option (GimpConfigInterface World) :=
  config_iface (G_TYPE_FROM_INSTANCE o).

Definition GIMP_IS_CONFIG `{ConfigEnv} (config : option GObject) : bool :=
  match config with
  | Some o =>
      match GIMP_CONFIG_GET_INTERFACE o with Some _ => true | None => false end
  | None => false
  end.

(** [g_type_interface_peek (g_type_class_peek (spec->value_type),
                            GIMP_TYPE_CONFIG)] is not NULL. *)
Definition GIMP_IS_CONFIG_TYPE_of `{ConfigEnv} (spec : GParamSpec) : bool :=
  match config_iface (pspec_value_type spec) with
  | Some _ => true
  | None => false
  end.

(** [flags & mask] as a C condition. *)
Definition has_flag (flags mask : Z) : bool := negb (Z.land flags mask =? 0).

(** ** gimp_config_iface_equal and gimp_config_is_equal_to *)

Section EqualLoop.
Context `{ConfigEnv}.

(** [gimp_config_is_equal_to] on a non-NULL first argument, for the
    call of line 224. *)
Variable is_equal_to_object : GObject -> option GObject -> bool.
Variable b : GObject.

(** The loop of lines 201-238 over the properties of [a] from index
    [i] on, with the current value of the flag [equal]. *)
Fixpoint equal_loop (specs : list (GParamSpec * GValue)) (equal : bool)
  : bool :=
  if negb equal then equal
  else
    match specs with
    | [] => equal
    | (prop_spec, a_value) :: rest =>
        if negb (has_flag (pspec_flags prop_spec) G_PARAM_READABLE)
        then equal_loop rest equal                        (* continue *)
        else
          let b_value := g_object_get_property b prop_spec in
          if negb (g_param_values_cmp prop_spec a_value b_value =? 0) then
            if has_flag (pspec_flags prop_spec) GIMP_CONFIG_PARAM_AGGREGATE
               && G_IS_PARAM_SPEC_OBJECT prop_spec
               && GIMP_IS_CONFIG_TYPE_of prop_spec
            then
              match a_value with
              | GV_object (Some a') =>
                  if negb (is_equal_to_object a'
                             (g_value_get_object b_value))
                  then equal_loop rest false
                  else equal_loop rest equal
              | _ =>
                  (* g_value_get_object gives NULL, which is no
                     GimpConfig: gimp_config_is_equal_to is FALSE *)
                  equal_loop rest false
              end
            else equal_loop rest false
          else equal_loop rest equal
    end.
End EqualLoop.

(** [gimp_config_is_equal_to (a, b)] for a non-NULL [a]: the three
    checks of lines 770-773, then the [equal] slot of [a]'s interface;
    the default slot is [gimp_config_iface_equal]. *)
Fixpoint is_equal_to_object `{ConfigEnv} (a : GObject) (b : option GObject)
    {struct a} : bool :=
  match GIMP_CONFIG_GET_INTERFACE a with
  | None => false
  | Some iface =>
      match b with
      | None => false
      | Some b' =>
          if negb (GIMP_IS_CONFIG (Some b')) then false
          else if negb (G_TYPE_FROM_INSTANCE a =? G_TYPE_FROM_INSTANCE b')
          then false
          else
            match equal iface with
            | class_equal f => f a b'
            | default_equal =>
                match a with
                | G_Object _ _ props =>
                    equal_loop is_equal_to_object b' props true
                end
            end
      end
  end.

Definition gimp_config_iface_equal `{ConfigEnv} (a b : GObject) : bool :=
  equal_loop is_equal_to_object b (object_props a) true.

Definition gimp_config_is_equal_to `{ConfigEnv} (a b : option GObject) : bool :=
  match a with
  | Some a' => is_equal_to_object a' b
  | None => false
  end.

(** ** The entry points with effects *)

(** A callback invocation, recorded in the order it happens. *)
Inductive Call : Type :=
| Call_serialize (config : GObject) (writer : GimpConfigWriter)
    (data : gpointer)
| Call_deserialize (config : GObject) (scanner : option GScanner)
    (nest_level : gint) (data : gpointer).

Record State (W : Type) := {
  world : W;
  calls : list Call
}.

Arguments world {W}.
Arguments calls {W}.
Arguments Build_State {W}.

(** A function returns a value or is stopped by a failed [g_assert]. *)
Inductive Outcome (W A : Type) : Type :=
| Returns (a : A) (st : State W)
| Aborts (st : State W).

Arguments Returns {W A}.
Arguments Aborts {W A}.

Definition M (W A : Type) : Type := State W -> Outcome W A.

Definition ret {W A} (a : A) : M W A := fun st => Returns a st.

Definition bind {W A B} (m : M W A) (k : A -> M W B) : M W B :=
  fun st =>
    match m st with
    | Returns a st' => k a st'
    | Aborts st' => Aborts st'
    end.

Declare Scope config_scope.
Delimit Scope config_scope with config.
Notation "x <- m ;; k" := (bind m (fun x => k))
  (at level 100, m at next level, right associativity) : config_scope.
Notation "m ;;; k" := (bind m (fun _ => k))
  (at level 100, right associativity) : config_scope.

(** A call into the environment. *)
Definition ext {W A} (f : W -> A * W) : M W A :=
  fun st =>
    let '(a, w) := f (world st) in
    Returns a {| world := w; calls := calls st |}.

Definition ext_ {W} (f : W -> W) : M W unit :=
  ext (fun w => (tt, f w)).

Definition read {W A} (f : W -> A) : M W A :=
  fun st => Returns (f (world st)) st.

Definition record_call {W} (c : Call) : M W unit :=
  fun st => Returns tt {| world := world st; calls := calls st ++ [c] |}.

Definition g_assert {W} (cond : bool) : M W unit :=
  fun st => if cond then Returns tt st else Aborts st.

(** [g_return_val_if_fail (GIMP_IS_CONFIG (config), fail)], giving the
    rest of the function the object and its interface. *)
Definition with_config `{ConfigEnv} {A} (config : option GObject) (fail : A)
    (k : GObject -> GimpConfigInterface World -> M World A) : M World A :=
  match config with
  | Some o =>
      match GIMP_CONFIG_GET_INTERFACE o with
      | Some iface => k o iface
      | None => ret fail
      end
  | None => ret fail
  end.

(** [g_return_val_if_fail (error == NULL || *error == NULL, fail)]. *)
Definition with_clear_error `{ConfigEnv} {A} (error : bool) (fail : A)
    (k : M World A) : M World A :=
  (set <- read error_is_set ;;
   if negb error || negb set then k else ret fail)%config.

Definition call_serialize `{ConfigEnv} (iface : GimpConfigInterface World)
    (config : GObject) (writer : GimpConfigWriter) (data : gpointer)
  : M World bool :=
  (record_call (Call_serialize config writer data) ;;;
   ext (serialize iface config writer data))%config.

Definition call_deserialize `{ConfigEnv} (iface : GimpConfigInterface World)
    (config : GObject) (scanner : option GScanner) (nest_level : gint)
    (data : gpointer) : M World bool :=
  (record_call (Call_deserialize config scanner nest_level data) ;;;
   ext (deserialize iface config scanner nest_level data))%config.

Local Open Scope config_scope.

(** Lines 277-298. *)
Definition gimp_config_serialize_to_file `{ConfigEnv}
    (config : option GObject) (filename : option string)
    (header footer : option string) (data : gpointer) (error : bool)
  : M World bool :=
  with_config config false (fun o iface =>
    match filename with
    | None => ret false
    | Some name =>
        with_clear_error error false
          (writer <- ext (gimp_config_writer_new_file name true header error) ;;
           match writer with
           | None => ret false
           | Some w =>
               call_serialize iface o w data ;;;
               ext (gimp_config_writer_finish w footer error)
           end)
    end).

(** Lines 423-440; the result is the returned [gchar *]. *)
Definition gimp_config_serialize_to_string `{ConfigEnv}
    (config : option GObject) (data : gpointer) : M World (option string) :=
  with_config config None (fun o iface =>
    str <- ext g_string_new ;;
    writer <- ext (gimp_config_writer_new_string str) ;;
    call_serialize iface o writer data ;;;
    ext (gimp_config_writer_finish writer None false) ;;;
    s <- ext (g_string_free str) ;;
    ret (Some s)).

(** The part the four deserializers share once the scanner exists:
    freeze, callback, thaw, destroy, assertion, return. *)
Definition deserialize_with_scanner `{ConfigEnv}
    (iface : GimpConfigInterface World) (o : GObject)
    (scanner : option GScanner) (data : gpointer) (error : bool) : M World bool :=
  ext_ (g_object_freeze_notify o) ;;;
  success <- call_deserialize iface o scanner 0 data ;;
  ext_ (g_object_thaw_notify o) ;;;
  ext_ (gimp_scanner_destroy scanner) ;;;
  (if negb success
   then (set <- read error_is_set ;; g_assert (negb error || set))
   else ret tt) ;;;
  ret success.

(** Lines 458-488. *)
Definition gimp_config_deserialize_file `{ConfigEnv}
    (config : option GObject) (filename : option string)
    (data : gpointer) (error : bool) : M World bool :=
  with_config config false (fun o iface =>
    match filename with
    | None => ret false
    | Some name =>
        with_clear_error error false
          (scanner <- ext (gimp_scanner_new_file name error) ;;
           match scanner with
           | None => ret false
           | Some s => deserialize_with_scanner iface o (Some s) data error
           end)
    end).

(** Lines 506-536. *)
Definition gimp_config_deserialize_gfile `{ConfigEnv}
    (config : option GObject) (file : option Z)
    (data : gpointer) (error : bool) : M World bool :=
  with_config config false (fun o iface =>
    match file with
    | Some f =>
        if G_IS_FILE file then
          with_clear_error error false
            (scanner <- ext (gimp_scanner_new_gfile f error) ;;
             match scanner with
             | None => ret false
             | Some s => deserialize_with_scanner iface o (Some s) data error
             end)
        else ret false
    | None => ret false
    end).

(** Lines 554-584. *)
Definition gimp_config_deserialize_stream `{ConfigEnv}
    (config : option GObject) (input : option Z)
    (data : gpointer) (error : bool) : M World bool :=
  with_config config false (fun o iface =>
    match input with
    | Some i =>
        if G_IS_INPUT_STREAM input then
          with_clear_error error false
            (scanner <- ext (gimp_scanner_new_stream i error) ;;
             match scanner with
             | None => ret false
             | Some s => deserialize_with_scanner iface o (Some s) data error
             end)
        else ret false
    | None => ret false
    end).

(** Lines 602-631: no test of [scanner] here. *)
Definition gimp_config_deserialize_string `{ConfigEnv}
    (config : option GObject) (text : option string) (text_len : gint)
    (data : gpointer) (error : bool) : M World bool :=
  with_config config false (fun o iface =>
    if match text with Some _ => true | None => text_len =? 0 end then
      with_clear_error error false
        (scanner <- ext (gimp_scanner_new_string text text_len error) ;;
         deserialize_with_scanner iface o scanner data error)
    else ret false).

(** Lines 692-702. *)
Definition gimp_config_serialize `{ConfigEnv}
    (config : option GObject) (writer : GimpConfigWriter) (data : gpointer)
  : M World bool :=
  with_config config false (fun o iface =>
    call_serialize iface o writer data).

(** Lines 717-729. *)
Definition gimp_config_deserialize `{ConfigEnv}
    (config : option GObject) (scanner : option GScanner)
    (nest_level : gint) (data : gpointer) : M World bool :=
  with_config config false (fun o iface =>
    call_deserialize iface o scanner nest_level data).

Local Close Scope config_scope.

(** ** Specification vocabulary for the config interface *)

(** What a deserializer does once the callback is reached with
    [scanner]: the callback runs between freeze and thaw, the scanner is
    destroyed, and a FALSE result is returned only past the assertion
    [error == NULL || *error != NULL]. *)
Definition deserialize_outcome `{ConfigEnv}
    (iface : GimpConfigInterface World) (o : GObject)
    (scanner : option GScanner) (data : gpointer) (error : bool)
    (st : State World) : Outcome World bool :=
  let '(success, w) :=
    deserialize iface o scanner 0 data (g_object_freeze_notify o (world st)) in
  let w' := gimp_scanner_destroy scanner (g_object_thaw_notify o w) in
  let st' :=
    {| world := w';
       calls := calls st ++ [Call_deserialize o scanner 0 data] |} in
  if success then Returns true st'
  else if negb error || error_is_set w' then Returns false st'
  else Aborts st'.

(** The property test of [equal_loop] for one property of [a]: the
    values compare equal, or the property is an aggregate object
    property of a GimpConfig type whose values are equal as configs. *)
Definition property_equal `{ConfigEnv} (b : GObject)
    (p : GParamSpec * GValue) : Prop :=
  let '(spec, a_value) := p in
  let b_value := g_object_get_property b spec in
  g_param_values_cmp spec a_value b_value = 0
  \/ (has_flag (pspec_flags spec) GIMP_CONFIG_PARAM_AGGREGATE = true
      /\ G_IS_PARAM_SPEC_OBJECT spec = true
      /\ GIMP_IS_CONFIG_TYPE_of spec = true
      /\ gimp_config_is_equal_to (g_value_get_object a_value)
           (g_value_get_object b_value) = true).

Definition readable `{ConfigEnv} (p : GParamSpec * GValue) : bool :=
  has_flag (pspec_flags (fst p)) G_PARAM_READABLE.

(** [a] with the non-readable properties removed. *)
Definition readable_part `{ConfigEnv} (a : GObject) : GObject :=
  match a with
  | G_Object addr t props => G_Object addr t (filter readable props)
  end.

(** The environment with the booleans returned by the [serialize]
    callbacks and by [gimp_config_writer_finish] replaced by [ser] and
    [fin] of them; the effects stay. *)
Definition with_results (ser fin : bool -> bool) (env : ConfigEnv)
  : ConfigEnv := {|
  World := @World env;
  G_PARAM_READABLE := @G_PARAM_READABLE env;
  GIMP_CONFIG_PARAM_AGGREGATE := @GIMP_CONFIG_PARAM_AGGREGATE env;
  config_iface := fun t =>
    match @config_iface env t with
    | Some i =>
        Some {| serialize := fun o w d wd =>
                  let '(r, wd') := serialize i o w d wd in (ser r, wd');
                deserialize := deserialize i;
                equal := equal i |}
    | None => None
    end;
  g_param_values_cmp := @g_param_values_cmp env;
  error_is_set := @error_is_set env;
  gimp_config_writer_new_file := @gimp_config_writer_new_file env;
  gimp_config_writer_new_string := @gimp_config_writer_new_string env;
  gimp_config_writer_finish := fun w footer error wd =>
    let '(r, wd') := @gimp_config_writer_finish env w footer error wd in
    (fin r, wd');
  g_string_new := @g_string_new env;
  g_string_free := @g_string_free env;
  gimp_scanner_new_file := @gimp_scanner_new_file env;
  gimp_scanner_new_gfile := @gimp_scanner_new_gfile env;
  gimp_scanner_new_stream := @gimp_scanner_new_stream env;
  gimp_scanner_new_string := @gimp_scanner_new_string env;
  gimp_scanner_destroy := @gimp_scanner_destroy env;
  g_object_freeze_notify := @g_object_freeze_notify env;
  g_object_thaw_notify := @g_object_thaw_notify env;
  G_IS_FILE := @G_IS_FILE env;
  G_IS_INPUT_STREAM := @G_IS_INPUT_STREAM env
|}.

(** ** A small configuration system to run the interface on *)

Record ExWorld := {
  ex_error : bool;           (* *error != NULL *)
  ex_text : string;          (* what the writers have written *)
  ex_frozen : Z              (* freeze count of the config *)
}.

Definition ex_write (s : string) (w : ExWorld) : ExWorld :=
  {| ex_error := ex_error w; ex_text := (ex_text w ++ s)%string;
     ex_frozen := ex_frozen w |}.

Definition ex_fail (error : bool) (w : ExWorld) : ExWorld :=
  {| ex_error := ex_error w || error; ex_text := ex_text w;
     ex_frozen := ex_frozen w |}.

Definition ex_freeze (d : Z) (w : ExWorld) : ExWorld :=
  {| ex_error := ex_error w; ex_text := ex_text w;
     ex_frozen := ex_frozen w + d |}.

(** Type 1 writes its text but reports failure when serializing, and
    deserializes only from an existing scanner, raising the error
    otherwise; type 2 has an [equal] and a [deserialize] of its own, which
    does not read the scanner. *)
Definition ex_iface (own : bool) : GimpConfigInterface ExWorld := {|
  serialize := fun _ _ _ w => (false, ex_write "(width 3)" w);
  deserialize := fun _ scanner _ _ w =>
    match scanner with
    | Some _ => (true, w)
    | None => if own then (true, w) else (false, ex_fail true w)
    end;
  equal := if own then class_equal (fun _ _ => true) else default_equal
|}.

Definition ex_values_cmp (spec : GParamSpec) (v1 v2 : GValue) : Z :=
  match v1, v2 with
  | GV_data x, GV_data y => x - y
  | GV_object (Some (G_Object p _ _)), GV_object (Some (G_Object q _ _)) =>
      p - q
  | GV_object None, GV_object None => 0
  | _, _ => 1
  end.

Definition example_config : ConfigEnv := {|
  World := ExWorld;
  G_PARAM_READABLE := 1;
  GIMP_CONFIG_PARAM_AGGREGATE := 512;
  config_iface := fun t =>
    if t =? 1 then Some (ex_iface false)
    else if t =? 2 then Some (ex_iface true)
    else None;
  g_param_values_cmp := ex_values_cmp;
  error_is_set := ex_error;
  gimp_config_writer_new_file := fun name _ _ error w =>
    if String.eqb name "/nonexistent/gimprc" then (None, ex_fail error w)
    else (Some 10, w);
  gimp_config_writer_new_string := fun _ w => (11, w);
  gimp_config_writer_finish := fun _ _ _ w => (true, w);
  g_string_new := fun w => (20, w);
  g_string_free := fun _ w => (ex_text w, w);
  gimp_scanner_new_file := fun name error w =>
    if String.eqb name "/nonexistent/gimprc" then (None, ex_fail error w)
    else (Some 30, w);
  gimp_scanner_new_gfile := fun _ _ w => (Some 31, w);
  gimp_scanner_new_stream := fun _ _ w => (Some 32, w);
  gimp_scanner_new_string := fun _ _ _ w => (Some 33, w);
  gimp_scanner_destroy := fun _ w => w;
  g_object_freeze_notify := fun _ => ex_freeze 1;
  g_object_thaw_notify := fun _ => ex_freeze (-1);
  G_IS_FILE := fun f => match f with Some _ => true | None => false end;
  G_IS_INPUT_STREAM := fun i => match i with Some _ => true | None => false end
|}.

Definition ex_world : ExWorld :=
  {| ex_error := false; ex_text := EmptyString; ex_frozen := 0 |}.

Definition ex_state : State ExWorld := {| world := ex_world; calls := [] |}.

Definition spec_width : GParamSpec :=
  {| pspec_name := "width"; pspec_flags := 3; pspec_value_type := 24;
     G_IS_PARAM_SPEC_OBJECT := false |}.

Definition spec_secret : GParamSpec :=
  {| pspec_name := "secret"; pspec_flags := 2; pspec_value_type := 24;
     G_IS_PARAM_SPEC_OBJECT := false |}.

Definition spec_child : GParamSpec :=
  {| pspec_name := "child"; pspec_flags := 515; pspec_value_type := 1;
     G_IS_PARAM_SPEC_OBJECT := true |}.

Definition ex_leaf (addr width : Z) : GObject :=
  G_Object addr 1 [(spec_width, GV_data width)].

Definition ex_config (addr width secret : Z) (child : option GObject)
  : GObject :=
  G_Object addr 1
    [(spec_width, GV_data width); (spec_secret, GV_data secret);
     (spec_child, GV_object child)].

Definition not_a_config : GObject := G_Object 900 7 [].

(* ------------------------------------------------------------------ *)
(** ** Further vocabulary for the search dialog                         *)
(* ------------------------------------------------------------------ *)

(** Successive insertions, as a sequence of calls of the insertion loop
    of [action_search_add_to_results_list] performs them. *)
Definition insert_all (rows store : list Row) : list Row :=
  fold_left (fun st r => results_insert r st) rows store.

Definition in_section (s : gint) (r : Row) : bool := COLUMN_SECTION r =? s.

(** The row the body of the loop over a group adds for [action], if any
    (lines 602-646 with the test of lines 447-453). *)
Definition candidate_of `{GLibText} `{ActionEnv}
    (keyword : option string) (history_actions : list GtkAction)
    (uninit : gint) (gimp : Gimp) (action : GtkAction) : list Row :=
  let name := gtk_action_get_name action in
  if gimp_action_history_excluded_action name
     && negb (String.eqb name "plug-in-repeat")
     && negb (String.eqb name "plug-in-reshow")
  then []
  else if negb (gtk_action_is_sensitive action)
          && negb (config_search_show_unavailable gimp)
  then []
  else
    match action_search_match_keyword action keyword (Some uninit) gimp with
    | (true, section) =>
        if is_redundant history_actions name then []
        else if has_label action
        then [row_of action (match section with Some s => s | None => uninit end)]
        else []
    | (false, _) => []
    end.

(** The rows a search adds, in the order it adds them: the history
    actions, then the actions of the groups. *)
Definition candidate_rows `{GLibText} `{ActionEnv}
    (keyword : option string) (gimp : Gimp) (uninit : gint) : list Row :=
  history_rows keyword gimp
  ++ flat_map
       (flat_map
          (candidate_of keyword
             (gimp_action_history_search gimp action_search_match_keyword
                keyword)
             uninit gimp))
       image_manager_action_groups.

(** [action] is listed below the history with section [s]: it is not
    excluded from the search, it is available or unavailable actions are
    shown, it matches with section [s], it is not in the history, and
    its label is not empty. *)
Definition listed `{GLibText} `{ActionEnv}
    (keyword : option string) (gimp : Gimp) (action : GtkAction) (s : gint)
  : Prop :=
  (gimp_action_history_excluded_action (gtk_action_get_name action) = false
   \/ gtk_action_get_name action = "plug-in-repeat"
   \/ gtk_action_get_name action = "plug-in-reshow")
  /\ (gtk_action_is_sensitive action = true
      \/ config_search_show_unavailable gimp = true)
  /\ (forall u, action_search_match_keyword action keyword (Some u) gimp
                = (true, Some s))
  /\ (forall h,
         In h (gimp_action_history_search gimp action_search_match_keyword
                 keyword) ->
         gtk_action_get_name h <> gtk_action_get_name action)
  /\ has_label action = true.

(* ------------------------------------------------------------------ *)
(** ** The key handler of the entry                                     *)
(* ------------------------------------------------------------------ *)

(** Key values of gdk/gdkkeysyms.h. *)
Definition GDK_KEY_Return : Z := 65293.    (* 0xff0d *)
Definition GDK_KEY_Escape : Z := 65307.    (* 0xff1b *)
Definition GDK_KEY_Down : Z := 65364.      (* 0xff54 *)

(** The calls a handler makes on the widgets and on actions, in order.
    The list store is not among them: it is the [results_list] of the
    dialog. *)
Inductive GtkCall : Type :=
| Call_window_resize (width height : gint)
| Call_entry_set_text (text : string)
| Call_list_view_show_all
| Call_list_view_hide
| Call_dialog_factory_hide
| Call_selection_set_mode_single
| Call_select_path (path : string)
| Call_unselect_row (row : nat)
| Call_action_activate (action : GtkAction).

(** What a handler reads from the widgets: whether [private->dialog] is
    a widget, the width [gtk_window_get_size] gives, the characters of
    the entry, and the index of the selected row, if any. *)
Record GtkInputs := {
  dialog_is_widget : bool;
  window_width : gint;
  entry_chars : string;
  selected_path : option nat
}.

(** [gtk_tree_selection_get_selected]: the selected row of the store. *)
Definition get_selected (inputs : GtkInputs) (private : SearchDialog)
  : option (nat * Row) :=
  match selected_path inputs with
  | Some n =>
      match nth_error (results_list private) n with
      | Some row => Some (n, row)
      | None => None
      end
  | None => None
  end.

(** Lines 830-844. *)
Definition action_search_hide (inputs : GtkInputs) : list GtkCall :=
  if dialog_is_widget inputs
  then [Call_entry_set_text EmptyString;
        Call_list_view_hide;
        Call_window_resize (window_width inputs) 1;
        Call_dialog_factory_hide]
  else [].

(** Lines 537-563. *)
Definition action_search_run_selected (inputs : GtkInputs)
    (private : SearchDialog) : list GtkCall :=
  Call_selection_set_mode_single
  :: match get_selected inputs private with
     | Some (_, row) =>
         let action := COLUMN_ACTION row in
         if gtk_action_is_sensitive action
         then action_search_hide inputs ++ [Call_action_activate action]
         else []
     | None => []
     end.

(** Lines 225-293: the dialog after the handler and the calls it made.
    [window_height] is [private->window_height]; [uninit] is the
    indeterminate value of the local [section] of the driver. *)
Definition action_search_entry_key_released `{GLibText} `{ActionEnv}
    (keyval : Z) (inputs : GtkInputs) (window_height : gint)
    (uninit : gint) (private : SearchDialog)
  : SearchDialog * list GtkCall :=
  let width := window_width inputs in
  let entry_text := g_strstrip (entry_chars inputs) in
  if keyval =? GDK_KEY_Escape then (private, action_search_hide inputs)
  else if keyval =? GDK_KEY_Return
  then (private, action_search_run_selected inputs private)
  else if negb (String.eqb entry_text EmptyString) then
    (action_search_history_and_actions (Some entry_text)
       {| private_gimp := private_gimp private; results_list := [] |}
       uninit,
     [Call_window_resize width window_height;
      Call_list_view_show_all;
      Call_select_path "0"])
  else if String.eqb entry_text EmptyString && (keyval =? GDK_KEY_Down) then
    (action_search_history_and_actions None
       {| private_gimp := private_gimp private; results_list := [] |}
       uninit,
     [Call_window_resize width window_height;
      Call_list_view_show_all;
      Call_select_path "0"])
  else
    (private,
     Call_selection_set_mode_single
     :: match get_selected inputs private with
        | Some (n, _) => [Call_unselect_row n]
        | None => []
        end
     ++ [Call_list_view_hide; Call_window_resize width 1]).

(* ------------------------------------------------------------------ *)
(** ** gimp_config_deserialize_return                                   *)
(* ------------------------------------------------------------------ *)

(** [GTokenType] values of glib/gscanner.h. *)
Definition G_TOKEN_EOF : Z := 0.
Definition G_TOKEN_LEFT_PAREN : Z := 40.     (* '(' *)
Definition G_TOKEN_RIGHT_PAREN : Z := 41.    (* ')' *)

(** A [GScanner]: the tokens it has not read yet (after the last one it
    gives [G_TOKEN_EOF]), [scanner->token], and the reports made with
    [g_scanner_unexp_token] as pairs of the expected token and
    [scanner->token]. *)
Record Scanner := {
  upcoming : list Z;
  scanner_token : Z;
  unexpected : list (Z * Z)
}.

Definition g_scanner_peek_next_token (s : Scanner) : Z :=
  hd G_TOKEN_EOF (upcoming s).

Definition g_scanner_get_next_token (s : Scanner) : Scanner :=
  {| upcoming := tl (upcoming s);
     scanner_token := hd G_TOKEN_EOF (upcoming s);
     unexpected := unexpected s |}.

Definition g_scanner_unexp_token (s : Scanner) (expected_token : Z)
  : Scanner :=
  {| upcoming := upcoming s;
     scanner_token := scanner_token s;
     unexpected := unexpected s ++ [(expected_token, scanner_token s)] |}.

(** Lines 643-677. *)
Definition gimp_config_deserialize_return (scanner : option Scanner)
    (expected_token : Z) (nest_level : gint) : bool * option Scanner :=
  match scanner with
  | None => (false, None)
  | Some s =>
      let next_token := g_scanner_peek_next_token s in
      if negb (expected_token =? G_TOKEN_LEFT_PAREN) then
        (false,
         Some (g_scanner_unexp_token (g_scanner_get_next_token s)
                 expected_token))
      else if (nest_level >? 0) && (next_token =? G_TOKEN_RIGHT_PAREN) then
        (true, Some s)
      else if negb (next_token =? G_TOKEN_EOF) then
        (false,
         Some (g_scanner_unexp_token (g_scanner_get_next_token s)
                 expected_token))
      else (true, Some s)
  end.

(* ------------------------------------------------------------------ *)
(** ** The other serializers                                            *)
(* ------------------------------------------------------------------ *)

(** The writer constructors of gimpconfigwriter.c that
    [gimp_config_serialize_to_gfile], [_to_stream] and [_to_fd] call. *)
Class WriterEnv `{ConfigEnv} := {
  gimp_config_writer_new_gfile :
    Z -> bool -> option string -> bool -> World ->
    option GimpConfigWriter * World;
  gimp_config_writer_new_stream :
    Z -> option string -> bool -> World -> option GimpConfigWriter * World;
  gimp_config_writer_new_fd : gint -> World -> option GimpConfigWriter * World;
  G_IS_OUTPUT_STREAM : option Z -> bool
}.

Local Open Scope config_scope.

(** Lines 318-339. *)
Definition gimp_config_serialize_to_gfile `{WriterEnv}
    (config : option GObject) (file : option Z)
    (header footer : option string) (data : gpointer) (error : bool)
  : M World bool :=
  with_config config false (fun o iface =>
    match file with
    | Some f =>
        if G_IS_FILE file then
          with_clear_error error false
            (writer <- ext (gimp_config_writer_new_gfile f true header error) ;;
             match writer with
             | None => ret false
             | Some w =>
                 call_serialize iface o w data ;;;
                 ext (gimp_config_writer_finish w footer error)
             end)
        else ret false
    | None => ret false
    end).

(** Lines 357-378. *)
Definition gimp_config_serialize_to_stream `{WriterEnv}
    (config : option GObject) (output : option Z)
    (header footer : option string) (data : gpointer) (error : bool)
  : M World bool :=
  with_config config false (fun o iface =>
    match output with
    | Some out =>
        if G_IS_OUTPUT_STREAM output then
          with_clear_error error false
            (writer <- ext (gimp_config_writer_new_stream out header error) ;;
             match writer with
             | None => ret false
             | Some w =>
                 call_serialize iface o w data ;;;
                 ext (gimp_config_writer_finish w footer error)
             end)
        else ret false
    | None => ret false
    end).

(** Lines 393-410. *)
Definition gimp_config_serialize_to_fd `{WriterEnv}
    (config : option GObject) (fd : gint) (data : gpointer)
  : M World bool :=
  with_config config false (fun o iface =>
    if fd >? 0 then
      writer <- ext (gimp_config_writer_new_fd fd) ;;
      match writer with
      | None => ret false
      | Some w =>
          call_serialize iface o w data ;;;
          ext (gimp_config_writer_finish w None false)
      end
    else ret false).

Local Close Scope config_scope.

(** The writer constructors for the environment of [with_results]. *)
Definition with_results_writers (ser fin : bool -> bool) (env : ConfigEnv)
    (writers : @WriterEnv env) : @WriterEnv (with_results ser fin env) :=
  @Build_WriterEnv (with_results ser fin env)
    (@gimp_config_writer_new_gfile env writers)
    (@gimp_config_writer_new_stream env writers)
    (@gimp_config_writer_new_fd env writers)
    (@G_IS_OUTPUT_STREAM env writers).

Definition example_writers : @WriterEnv example_config :=
  @Build_WriterEnv example_config
    (fun _ _ _ _ w => (Some 12, w))
    (fun _ _ _ w => (Some 13, w))
    (fun fd w => (Some (100 + fd), w))
    (fun o => match o with Some _ => true | None => false end).

(** The names of the properties of [o] are pairwise different. *)
Definition distinct_property_names (o : GObject) : Prop :=
  NoDup (map (fun p => pspec_name (fst p)) (object_props o)).

(** The name of the action of a row. *)
Definition row_name (r : Row) : string :=
  gtk_action_get_name (COLUMN_ACTION r).

(** The state a function leaves, whether it returns or is stopped. *)
Definition outcome_state {W A : Type} (o : Outcome W A) : State W :=
  match o with
  | Returns _ st => st
  | Aborts st => st
  end.

(** The calls of [st'] are those of [st], followed at most by one call
    of the [deserialize] callback on [config] and [data] at nest level
    0. *)
Definition at_most_one_deserialize {W : Type} (config : option GObject)
    (data : gpointer) (st st' : State W) : Prop :=
  calls st' = calls st
  \/ exists o scanner,
       config = Some o
       /\ calls st' = calls st ++ [Call_deserialize o scanner 0 data].



(* ================================================================== *)
(** * Part II: theorems                                                *)
(* ================================================================== *)

(** ** Scanning a token vector *)

Lemma scan_tokens_found (tokens : list string) (key : string) (j : gint) :
  fst (scan_tokens tokens key j) = true <-> prefix_of_some tokens key.
Proof.
  revert j. induction tokens as [|t rest IH]; intros j; simpl.
  - split; [discriminate | intros (t & [] & _)].
  - destruct (g_str_has_prefix t key) eqn:E; simpl.
    + split; [intros _; exists t; auto with datatypes | reflexivity].
    + rewrite IH. split.
      * intros (u & Hin & Hu). exists u. auto with datatypes.
      * intros (u & [<- | Hin] & Hu); [congruence | exists u; auto].
Qed.

Lemma scan_tokens_missing (tokens : list string) (key : string) (j : gint) :
  ~ prefix_of_some tokens key ->
  scan_tokens tokens key j = (false, j + g_strv_length tokens).
Proof.
  unfold g_strv_length. revert j.
  induction tokens as [|t rest IH]; intros j Hno; simpl.
  - f_equal. lia.
  - destruct (g_str_has_prefix t key) eqn:E.
    + destruct Hno. exists t. auto with datatypes.
    + rewrite IH.
      * f_equal. lia.
      * intros (u & Hin & Hu). apply Hno. exists u. auto with datatypes.
Qed.

Lemma scan_tokens_first (tokens : list string) (key : string) (p : nat)
    (j : gint) :
  first_match_at tokens key p ->
  scan_tokens tokens key j = (true, j + Z.of_nat p).
Proof.
  revert p j. induction tokens as [|t rest IH]; intros p j [(u & Hu & Hpre) Hmin].
  - destruct p; discriminate.
  - simpl. destruct p as [|p].
    + simpl in Hu. injection Hu as ->. rewrite Hpre. f_equal. lia.
    + rewrite (Hmin 0%nat t) by (simpl; auto; lia).
      rewrite (IH p (j + 1)).
      * f_equal. lia.
      * split; [exists u; auto|].
        intros q v Hq Hv. apply (Hmin (S q) v); [lia | exact Hv].
Qed.

Lemma prefix_of_some_app (l1 l2 : list string) (key : string) :
  prefix_of_some (l1 ++ l2) key <->
  prefix_of_some l1 key \/ prefix_of_some l2 key.
Proof.
  unfold prefix_of_some. split.
  - intros (t & Hin & Ht). apply in_app_or in Hin.
    destruct Hin; [left | right]; exists t; auto.
  - intros [(t & Hin & Ht) | (t & Hin & Ht)]; exists t; auto with datatypes.
Qed.

Lemma prefix_of_some_dec (tokens : list string) (key : string) :
  prefix_of_some tokens key \/ ~ prefix_of_some tokens key.
Proof.
  destruct (fst (scan_tokens tokens key 0)) eqn:E.
  - left. apply (scan_tokens_found tokens key 0). exact E.
  - right. intros Hp. apply (scan_tokens_found tokens key 0) in Hp. congruence.
Qed.

(** ** The ordered-prefix loop *)

Lemma prefix_step_matched (lt la : list string) (i : gint) (key : string)
    (st : prefix_state) :
  ps_matched (prefix_step lt la i key st) = true <->
  ps_matched st = true /\ prefix_of_some (lt ++ la) key.
Proof.
  unfold prefix_step. rewrite prefix_of_some_app.
  destruct (prefix_of_some_dec lt key) as [Hlt | Hlt].
  - pose proof (proj2 (scan_tokens_found lt key 0) Hlt) as E.
    destruct (scan_tokens lt key 0) as [f j]. simpl in E. subst f. simpl.
    tauto.
  - rewrite (scan_tokens_missing lt key 0 Hlt).
    destruct (prefix_of_some_dec la key) as [Hla | Hla].
    + pose proof (proj2 (scan_tokens_found la key 0) Hla) as E.
      destruct (scan_tokens la key 0) as [f j]. simpl in E. subst f. simpl.
      tauto.
    + rewrite (scan_tokens_missing la key 0 Hla). simpl.
      split; [discriminate | tauto].
Qed.

Lemma prefix_loop_matched (lt la keys : list string) (i : gint)
    (st : prefix_state) :
  ps_matched (prefix_loop lt la keys i st) = true <->
  ps_matched st = true /\ Forall (prefix_of_some (lt ++ la)) keys.
Proof.
  revert i st. induction keys as [|k ks IH]; intros i st; simpl.
  - split; [auto | tauto].
  - rewrite IH, prefix_step_matched. split.
    + intros [[Hm Hk] Hks]. auto.
    + intros [Hm Hall]. inversion Hall; subst. auto.
Qed.

Lemma prefix_loop_positions (lt la keys : list string) (pos : list nat)
    (i : gint) (st : prefix_state) :
  Forall2 (first_match_at lt) keys pos ->
  let st' := prefix_loop lt la keys i st in
  ps_matched st' = ps_matched st
  /\ ps_match_start st' = ps_match_start st && start_from i pos
  /\ ps_match_ordered st' =
     ps_match_ordered st && ordered_from (ps_previous_matched st) pos.
Proof.
  intros Hpos. revert i st.
  induction Hpos as [|k p ks ps Hk Hks IH]; intros i st; simpl.
  - rewrite !andb_true_r. auto.
  - specialize (IH (i + 1) (prefix_step lt la i k st)). simpl in IH.
    destruct IH as (IHm & IHs & IHo).
    rewrite IHm, IHs, IHo. unfold prefix_step.
    rewrite (scan_tokens_first lt k p 0 Hk). simpl.
    destruct (ps_matched st), (ps_match_start st), (ps_match_ordered st),
      (i =? Z.of_nat p), (ps_previous_matched st >? Z.of_nat p); auto.
Qed.

Lemma start_from_spec (n : nat) (pos : list nat) :
  start_from (Z.of_nat n) pos = true <-> pos = seq n (List.length pos).
Proof.
  revert n. induction pos as [|p rest IH]; intros n; simpl.
  - tauto.
  - rewrite andb_true_iff, Z.eqb_eq.
    replace (Z.of_nat n + 1) with (Z.of_nat (S n)) by lia. rewrite IH.
    split.
    + intros [Hn Hrest]. apply Nat2Z.inj in Hn. subst p. f_equal. exact Hrest.
    + intros Heq. injection Heq as -> Hrest. auto.
Qed.

Lemma ordered_from_spec (q : nat) (pos : list nat) :
  ordered_from (Z.of_nat q) pos = true <-> Sorted le (q :: pos).
Proof.
  revert q. induction pos as [|p rest IH]; intros q; simpl.
  - split; [intros _; repeat constructor | reflexivity].
  - rewrite andb_true_iff, negb_true_iff, IH. split.
    + intros [Hle Hs]. constructor; [exact Hs|]. constructor.
      destruct (Z.gtb_spec (Z.of_nat q) (Z.of_nat p)); [discriminate | lia].
    + intros Hs. inversion Hs as [|? ? Hs' Hhd]; subst.
      inversion Hhd; subst. split; [|exact Hs'].
      destruct (Z.gtb_spec (Z.of_nat q) (Z.of_nat p)); [lia | reflexivity].
Qed.

Lemma ordered_from_start (pos : list nat) :
  ordered_from (-1) pos = true <-> nondecreasing pos.
Proof.
  unfold nondecreasing. destruct pos as [|p rest]; simpl.
  - split; [constructor | reflexivity].
  - rewrite andb_true_iff, negb_true_iff, ordered_from_spec. split.
    + tauto.
    + intros Hs. split; [|exact Hs].
      destruct (Z.gtb_spec (-1) (Z.of_nat p)); [lia | reflexivity].
Qed.

(** ** The three blocks of the matcher *)

Section Blocks.
Context `{GLibText}.

Lemma initials_test_spec (c1 c2 : gunichar) (tokens : list string) :
  (g_strv_length tokens >? 1)
  && (g_utf8_get_char (strv_nth tokens 0) =? c1)
  && (g_utf8_get_char (strv_nth tokens 1) =? c2) = true
  <-> initials_are c1 c2 tokens.
Proof.
  unfold initials_are.
  destruct tokens as [|t0 [|t1 rest]].
  - split; [discriminate | intros (? & ? & ? & ? & _); discriminate].
  - split; [discriminate | intros (? & ? & ? & ? & _); discriminate].
  - assert (Hlen : (g_strv_length (t0 :: t1 :: rest) >? 1) = true).
    { unfold g_strv_length. apply Z.gtb_lt. simpl List.length. lia. }
    rewrite Hlen. unfold strv_nth. simpl nth.
    rewrite !andb_true_iff, !Z.eqb_eq. split.
    + intros [[_ H0] H1]. exists t0, t1, rest. auto.
    + intros (u0 & u1 & r & Heq & H0 & H1). injection Heq as -> -> ->.
      auto.
Qed.

Lemma initials_block_cases (keys lt la : list string) (s : option gint) :
  (two_letter_initials keys lt la
   /\ initials_block keys lt la (false, s) = (true, set_section s 1))
  \/ (~ two_letter_initials keys lt la
      /\ initials_block keys lt la (false, s) = (false, s)).
Proof.
  unfold initials_block, two_letter_initials.
  destruct ((g_strv_length keys =? 1)
            && (g_utf8_strlen (strv_nth keys 0) =? 2)) eqn:Hk.
  - apply andb_true_iff in Hk. destruct Hk as [Hlen H2].
    apply Z.eqb_eq in Hlen. apply Z.eqb_eq in H2.
    unfold g_strv_length in Hlen.
    destruct keys as [|k [|k' ks]]; simpl in Hlen; try lia.
    unfold strv_nth in *. simpl in *.
    match goal with
    | |- context [if ?c then _ else _] => destruct c eqn:Hc
    end.
    + left. split; [|reflexivity]. exists k. repeat split; auto.
      apply orb_true_iff in Hc.
      destruct Hc as [Hc | Hc]; apply initials_test_spec in Hc; auto.
    + right. split; [|reflexivity].
      intros (k0 & Heq & _ & Hi). injection Heq as <-.
      apply orb_false_iff in Hc. destruct Hc as [Hc1 Hc2].
      destruct Hi as [Hi | Hi]; apply initials_test_spec in Hi;
        unfold strv_nth in Hi; congruence.
  - right. split; [|reflexivity].
    intros (k & -> & H2 & _). unfold g_strv_length, strv_nth in Hk.
    simpl in Hk. rewrite H2 in Hk. discriminate.
Qed.

Lemma prefix_block_done (keys lt la : list string) (s : option gint) :
  prefix_block keys lt la (true, s) = (true, s).
Proof. reflexivity. Qed.

Lemma prefix_block_no_label (keys la : list string) (s : option gint) :
  prefix_block keys [] la (false, s) = (false, s).
Proof. reflexivity. Qed.

Lemma strv_length_pos (v : list string) :
  v <> [] -> (g_strv_length v >? 0) = true.
Proof.
  intros Hv. destruct v as [|t r]; [congruence|].
  unfold g_strv_length. simpl. reflexivity.
Qed.

Lemma prefix_block_matched (keys lt la : list string) (s : option gint) :
  lt <> [] ->
  (fst (prefix_block keys lt la (false, s)) = true
   <-> Forall (prefix_of_some (lt ++ la)) keys).
Proof.
  intros Hlt. unfold prefix_block. simpl.
  rewrite (strv_length_pos lt Hlt). simpl.
  rewrite prefix_loop_matched. simpl. tauto.
Qed.

Lemma prefix_block_unmatched (keys lt la : list string) (s : option gint) :
  fst (prefix_block keys lt la (false, s)) = false ->
  prefix_block keys lt la (false, s) = (false, s).
Proof.
  unfold prefix_block. simpl.
  destruct (g_strv_length lt >? 0); [|reflexivity]. simpl.
  intros ->. reflexivity.
Qed.

(** The label-based heuristics as a whole. *)
Lemma label_blocks_matched (keys lt la : list string) (s : option gint) :
  fst (prefix_block keys lt la (initials_block keys lt la (false, s))) = true
  <-> label_heuristics_match keys lt la.
Proof.
  unfold label_heuristics_match.
  destruct (initials_block_cases keys lt la s) as [[Hi ->] | [Hi ->]].
  - rewrite prefix_block_done. simpl. tauto.
  - destruct lt as [|t lt'].
    + rewrite prefix_block_no_label. simpl.
      split; [discriminate | intros [? | [? _]]; [tauto | congruence]].
    + rewrite prefix_block_matched by discriminate.
      split; [intros Hall; right; split; [discriminate | exact Hall]|].
      intros [? | [_ Hall]]; [tauto | exact Hall].
Qed.

Lemma label_blocks_unmatched (keys lt la : list string) (s : option gint) :
  ~ label_heuristics_match keys lt la ->
  prefix_block keys lt la (initials_block keys lt la (false, s)) = (false, s).
Proof.
  intros Hno.
  assert (Hf : fst (prefix_block keys lt la
                      (initials_block keys lt la (false, s))) = false).
  { destruct (fst (prefix_block keys lt la
                     (initials_block keys lt la (false, s)))) eqn:E; auto.
    apply label_blocks_matched in E. tauto. }
  destruct (initials_block_cases keys lt la s) as [[Hi _] | [Hi Heq]].
  - destruct Hno. left. exact Hi.
  - rewrite Heq in *. apply prefix_block_unmatched. exact Hf.
Qed.

(** The tooltip loop. *)
Lemma tooltip_step_spec (tt ta lt la : list string) (k : string)
    (m x : bool) :
  let r := tooltip_step tt ta lt la k (m, x) in
  (fst r = true <->
     m = true /\ prefix_of_some (tt ++ ta ++ lt ++ la) k)
  /\ (snd r = true <->
        x = true
        \/ (~ prefix_of_some (tt ++ ta) k /\ prefix_of_some (lt ++ la) k)).
Proof.
  unfold tooltip_step. rewrite !prefix_of_some_app.
  pose proof (scan_tokens_found tt k 0) as Ett.
  pose proof (scan_tokens_found ta k 0) as Eta.
  pose proof (scan_tokens_found lt k 0) as Elt.
  pose proof (scan_tokens_found la k 0) as Ela.
  destruct (fst (scan_tokens tt k 0)),
    (fst (scan_tokens ta k 0)),
    (fst (scan_tokens lt k 0)),
    (fst (scan_tokens la k 0)); simpl;
    intuition (discriminate || auto).
Qed.

Lemma tooltip_loop_spec (tt ta lt la keys : list string) (m x : bool) :
  let r := tooltip_loop tt ta lt la keys (m, x) in
  (fst r = true <->
     m = true /\ Forall (prefix_of_some (tt ++ ta ++ lt ++ la)) keys)
  /\ (snd r = true <->
        x = true
        \/ exists k, In k keys /\ ~ prefix_of_some (tt ++ ta) k
                     /\ prefix_of_some (lt ++ la) k).
Proof.
  revert m x. induction keys as [|k ks IH]; intros m x.
  - simpl. split; [split; [auto | tauto]|].
    split; [auto | intros [? | (? & [] & _)]; auto].
  - cbn [tooltip_loop].
    destruct (tooltip_step tt ta lt la k (m, x)) as [m' x'] eqn:Es.
    pose proof (tooltip_step_spec tt ta lt la k m x) as Hs.
    rewrite Es in Hs. simpl in Hs. destruct Hs as [Hm Hx].
    destruct (IH m' x') as [IHm IHx]. cbv zeta. split.
    + rewrite IHm, Hm. split.
      * intros [[? ?] ?]. auto.
      * intros [? Hall]. inversion Hall; subst. auto.
    + rewrite IHx, Hx. split.
      * intros [[? | [? ?]] | (k' & ? & ? & ?)]; auto.
        -- right. exists k. auto with datatypes.
        -- right. exists k'. auto with datatypes.
      * intros [? | (k' & [<- | ?] & ? & ?)]; auto.
        right. exists k'. auto.
Qed.
End Blocks.

(** ** action_search_match_keyword *)

Section MatchKeyword.
Context `{GLibText}.

Lemma match_keyword_unfold (action : GtkAction) (kw : string)
    (section : option gint) (gimp : Gimp)
    (keys kalts lt la : list string) :
  g_str_tokenize_and_fold kw (config_language gimp) = (keys, kalts) ->
  g_str_tokenize_and_fold (gimp_strip_uline (gtk_action_get_label action))
    (config_language gimp) = (lt, la) ->
  action_search_match_keyword action (Some kw) section gimp =
  tooltip_block action gimp keys lt la
    (prefix_block keys lt la (initials_block keys lt la (false, section))).
Proof.
  intros Hk Hl. unfold action_search_match_keyword. rewrite Hk, Hl.
  reflexivity.
Qed.

Lemma tooltip_block_done (action : GtkAction) (gimp : Gimp)
    (keys lt la : list string) (s : option gint) :
  tooltip_block action gimp keys lt la (true, s) = (true, s).
Proof.
  unfold tooltip_block. destruct (gtk_action_get_tooltip action); reflexivity.
Qed.

Lemma tooltip_block_no_tooltip (action : GtkAction) (gimp : Gimp)
    (keys lt la : list string) (st : bool * option gint) :
  gtk_action_get_tooltip action = None ->
  tooltip_block action gimp keys lt la st = st.
Proof.
  intros Hno. unfold tooltip_block. rewrite Hno. destruct st. reflexivity.
Qed.

Lemma tooltip_block_short_key (action : GtkAction) (gimp : Gimp)
    (keys lt la : list string) (st : bool * option gint) :
  g_utf8_strlen_first keys <= 2 ->
  tooltip_block action gimp keys lt la st = st.
Proof.
  intros Hshort. unfold tooltip_block. destruct st as [m s].
  destruct (gtk_action_get_tooltip action); [|reflexivity].
  replace (g_utf8_strlen_first keys >? 2) with false.
  - rewrite andb_false_r. reflexivity.
  - symmetry. destruct (Z.gtb_spec (g_utf8_strlen_first keys) 2); [lia | auto].
Qed.

(** The tooltip block entered with [matched = FALSE]. *)
Lemma tooltip_block_spec (action : GtkAction) (gimp : Gimp)
    (keys lt la : list string) (s : option gint)
    (tooltip : string) (tt ta : list string) :
  gtk_action_get_tooltip action = Some tooltip ->
  g_str_tokenize_and_fold tooltip (config_language gimp) = (tt, ta) ->
  let r := tooltip_block action gimp keys lt la (false, s) in
  (fst r = true <-> tooltip_fallback_matches keys tt ta lt la)
  /\ (fst r = false -> snd r = s)
  /\ (fst r = true ->
      ((exists k, In k keys /\ ~ prefix_of_some (tt ++ ta) k
                  /\ prefix_of_some (lt ++ la) k)
       -> snd r = set_section s 5)
      /\ (~ (exists k, In k keys /\ ~ prefix_of_some (tt ++ ta) k
                       /\ prefix_of_some (lt ++ la) k)
          -> snd r = set_section s 4)).
Proof.
  intros Htip Htok. unfold tooltip_block, tooltip_fallback_matches.
  rewrite Htip, Htok. cbn [negb andb].
  destruct (Z.gtb_spec (g_utf8_strlen_first keys) 2) as [Hlong | Hshort].
  - destruct tt as [|t0 tt'].
    + simpl. repeat split; try discriminate; auto.
      intros (_ & Hne & _). congruence.
    + rewrite strv_length_pos by discriminate.
      destruct (tooltip_loop (t0 :: tt') ta lt la keys (true, false))
        as [m' mixed] eqn:El.
      pose proof (tooltip_loop_spec (t0 :: tt') ta lt la keys true false) as Hs.
      rewrite El in Hs. simpl in Hs. destruct Hs as [Hm Hx].
      cbv zeta. cbn [fst snd]. split; [|split].
      * rewrite Hm. split.
        -- intros [_ Hall]. repeat split; [lia | discriminate | exact Hall].
        -- intros (_ & _ & Hall). auto.
      * intros ->. reflexivity.
      * intros ->. split.
        -- intros Hmixed. assert (mixed = true) as -> by (apply Hx; auto).
           reflexivity.
        -- intros Hnot. destruct mixed; [|reflexivity].
           destruct (proj1 Hx eq_refl) as [? | ?]; [discriminate | tauto].
  - simpl. repeat split; try discriminate; auto.
    intros (Hlong & _). lia.
Qed.

(** C8: a NULL keyword matches every action: the result is TRUE and a
    supplied [*section] becomes 0, whatever the action (and the
    configuration) is. *)
Theorem null_keyword_matches_everything (action : GtkAction) (gimp : Gimp)
    (s : gint) :
  action_search_match_keyword action None (Some s) gimp = (true, Some 0)
  /\ action_search_match_keyword action None None gimp = (true, None).
Proof. split; reflexivity. Qed.

(** C9: for an action whose label yields at least one token, a
    non-NULL keyword that tokenizes to zero tokens matches, and a
    supplied [*section] becomes 1. *)
Theorem tokenless_keyword_matches (action : GtkAction) (kw : string)
    (section : option gint) (gimp : Gimp) (kalts lt la : list string) :
  g_str_tokenize_and_fold kw (config_language gimp) = ([], kalts) ->
  g_str_tokenize_and_fold (gimp_strip_uline (gtk_action_get_label action))
    (config_language gimp) = (lt, la) ->
  lt <> [] ->
  action_search_match_keyword action (Some kw) section gimp
  = (true, set_section section 1).
Proof.
  intros Hk Hl Hlt.
  rewrite (match_keyword_unfold action kw section gimp [] kalts lt la Hk Hl).
  replace (initials_block [] lt la (false, section)) with (false, section)
    by reflexivity.
  assert (Hp : prefix_block [] lt la (false, section)
               = (true, set_section section 1)).
  { unfold prefix_block. cbn [negb andb].
    rewrite (strv_length_pos lt Hlt). reflexivity. }
  rewrite Hp. apply tooltip_block_done.
Qed.

(** C2: when the keyword is a single token of exactly two characters
    [c1 c2] and the first two label tokens, or the first two label
    alternates, start with [c1] and [c2], the matcher returns TRUE and
    a supplied [*section] becomes 1. *)
Theorem two_letter_initials_match (action : GtkAction) (kw : string)
    (section : option gint) (gimp : Gimp) (k : string)
    (kalts lt la : list string) (c1 c2 : gunichar) :
  g_str_tokenize_and_fold kw (config_language gimp) = ([k], kalts) ->
  g_utf8_strlen k = 2 ->
  c1 = g_utf8_get_char k ->
  c2 = g_utf8_get_char (g_utf8_find_next_char k) ->
  g_str_tokenize_and_fold (gimp_strip_uline (gtk_action_get_label action))
    (config_language gimp) = (lt, la) ->
  initials_are c1 c2 lt \/ initials_are c1 c2 la ->
  action_search_match_keyword action (Some kw) section gimp
  = (true, set_section section 1).
Proof.
  intros Hk Hlen -> -> Hl Hinit.
  rewrite (match_keyword_unfold action kw section gimp [k] kalts lt la Hk Hl).
  destruct (initials_block_cases [k] lt la section) as [[_ ->] | [Hno _]].
  - rewrite prefix_block_done. apply tooltip_block_done.
  - destruct Hno. exists k. auto.
Qed.
End MatchKeyword.

Section MatchSections.
Context `{GLibText}.

Lemma prefix_block_sections (keys lt la : list string) (pos : list nat)
    (s : gint) :
  lt <> [] ->
  Forall2 (first_match_at lt) keys pos ->
  prefix_block keys lt la (false, Some s) =
  (true,
   Some (if ordered_from (-1) pos
         then (if start_from 0 pos then 1 else 2)
         else 3)).
Proof.
  intros Hlt Hpos. unfold prefix_block. cbn [negb andb].
  rewrite (strv_length_pos lt Hlt).
  pose proof (prefix_loop_positions lt la keys pos 0
                {| ps_matched := true; ps_previous_matched := -1;
                   ps_match_start := true; ps_match_ordered := true |}
                Hpos) as Hl.
  cbv zeta in Hl. cbn [ps_matched ps_previous_matched ps_match_start
                         ps_match_ordered andb] in Hl.
  destruct Hl as (-> & -> & ->). reflexivity.
Qed.

(** C1, amended: for an action whose label yields at least one token
    and a non-NULL keyword,
    - if every keyword token is a prefix of a label token or of a label
      alternate, the matcher returns TRUE;
    - unless the two-letter initials heuristic applies, if every
      keyword token is a prefix of a label token, [pos] being the
      positions of the first such label tokens, a supplied [*section]
      becomes 1 when [pos] is 0, 1, 2, ..., 2 when [pos] never
      decreases but is not 0, 1, 2, ..., and 3 when it decreases;
    - unless the two-letter initials heuristic applies, if some keyword
      token is a prefix of no label token and of no label alternate,
      and the tooltip fallback does not match, the matcher returns
      FALSE;
    - if the two-letter initials heuristic applies, the matcher returns
      TRUE and a supplied [*section] becomes 1. *)
Theorem ordered_prefix_matching (action : GtkAction) (kw : string)
    (section : option gint) (gimp : Gimp) (keys kalts lt la : list string) :
  g_str_tokenize_and_fold kw (config_language gimp) = (keys, kalts) ->
  g_str_tokenize_and_fold (gimp_strip_uline (gtk_action_get_label action))
    (config_language gimp) = (lt, la) ->
  lt <> [] ->
  (Forall (prefix_of_some (lt ++ la)) keys ->
   fst (action_search_match_keyword action (Some kw) section gimp) = true)
  /\ (~ two_letter_initials keys lt la ->
      forall (pos : list nat) (s : gint),
        Forall2 (first_match_at lt) keys pos ->
        (from_start pos ->
         action_search_match_keyword action (Some kw) (Some s) gimp
         = (true, Some 1))
        /\ (nondecreasing pos -> ~ from_start pos ->
            action_search_match_keyword action (Some kw) (Some s) gimp
            = (true, Some 2))
        /\ (~ nondecreasing pos ->
            action_search_match_keyword action (Some kw) (Some s) gimp
            = (true, Some 3)))
  /\ (~ two_letter_initials keys lt la ->
      (exists k, In k keys /\ ~ prefix_of_some (lt ++ la) k) ->
      (forall tooltip tt ta,
          gtk_action_get_tooltip action = Some tooltip ->
          g_str_tokenize_and_fold tooltip (config_language gimp) = (tt, ta) ->
          ~ tooltip_fallback_matches keys tt ta lt la) ->
      fst (action_search_match_keyword action (Some kw) section gimp)
      = false)
  /\ (two_letter_initials keys lt la ->
      action_search_match_keyword action (Some kw) section gimp
      = (true, set_section section 1)).
Proof.
  intros Hk Hl Hlt. split; [|split; [|split]].
  - intros Hall.
    rewrite (match_keyword_unfold action kw section gimp keys kalts lt la
               Hk Hl).
    assert (Hm : fst (prefix_block keys lt la
                        (initials_block keys lt la (false, section))) = true).
    { apply label_blocks_matched. right. auto. }
    destruct (prefix_block keys lt la
                (initials_block keys lt la (false, section))) as [m s'].
    simpl in Hm. subst m. rewrite tooltip_block_done. reflexivity.
  - intros Hno pos s Hpos.
    rewrite (match_keyword_unfold action kw (Some s) gimp keys kalts lt la
               Hk Hl).
    destruct (initials_block_cases keys lt la (Some s)) as [[Hi _] | [_ ->]];
      [tauto|].
    rewrite (prefix_block_sections keys lt la pos s Hlt Hpos).
    rewrite tooltip_block_done.
    pose proof (start_from_spec 0 pos) as Hstart.
    pose proof (ordered_from_start pos) as Hord.
    change (Z.of_nat 0) with 0 in Hstart. unfold from_start.
    assert (Hseq : from_start pos -> nondecreasing pos).
    { unfold from_start, nondecreasing. intros ->. clear.
      generalize 0%nat. induction (List.length pos) as [|n IH];
        intros a; simpl; constructor; auto.
      destruct n; simpl; constructor. lia. }
    unfold from_start in *.
    destruct (ordered_from (-1) pos) eqn:Eo, (start_from 0 pos) eqn:Es.
    + repeat split; intros; auto; tauto.
    + repeat split; intros; auto; try tauto.
      assert (false = true) by tauto. discriminate.
    + assert (false = true) by tauto. discriminate.
    + repeat split; intros; auto.
      * assert (false = true) by tauto. discriminate.
      * assert (false = true) by tauto. discriminate.
  - intros Hno (k & Hin & Hk') Htip.
    rewrite (match_keyword_unfold action kw section gimp keys kalts lt la
               Hk Hl).
    rewrite label_blocks_unmatched.
    + destruct (gtk_action_get_tooltip action) as [tooltip|] eqn:Et.
      * destruct (g_str_tokenize_and_fold tooltip (config_language gimp))
          as [tt ta] eqn:Ett.
        pose proof (tooltip_block_spec action gimp keys lt la section
                      tooltip tt ta Et Ett) as (Hm & _).
        destruct (fst (tooltip_block action gimp keys lt la (false, section)));
          [|reflexivity].
        exfalso. apply (Htip tooltip tt ta eq_refl Ett). apply Hm.
        reflexivity.
      * rewrite tooltip_block_no_tooltip by exact Et. reflexivity.
    + intros [Hi | [_ Hall]]; [tauto|].
      rewrite Forall_forall in Hall. apply Hk'. apply Hall. exact Hin.
  - intros Hinit.
    rewrite (match_keyword_unfold action kw section gimp keys kalts lt la
               Hk Hl).
    destruct (initials_block_cases keys lt la section) as [[_ ->] | [Hno _]];
      [|tauto].
    rewrite prefix_block_done. apply tooltip_block_done.
Qed.

(** C3: for an action with a tooltip and a keyword that the label-based
    heuristics do not match: when the first keyword token has more
    than two characters, the matcher returns TRUE exactly when the
    tooltip has a token and every keyword token is a prefix of a
    tooltip token, tooltip alternate, label token or label alternate,
    and then a supplied [*section] becomes 5 if some keyword token
    matched in the label only and 4 otherwise; when the first keyword
    token has at most two characters the matcher returns FALSE. *)
Theorem tooltip_fallback (action : GtkAction) (kw : string)
    (gimp : Gimp) (keys kalts lt la : list string)
    (tooltip : string) (tt ta : list string) :
  g_str_tokenize_and_fold kw (config_language gimp) = (keys, kalts) ->
  g_str_tokenize_and_fold (gimp_strip_uline (gtk_action_get_label action))
    (config_language gimp) = (lt, la) ->
  gtk_action_get_tooltip action = Some tooltip ->
  g_str_tokenize_and_fold tooltip (config_language gimp) = (tt, ta) ->
  ~ label_heuristics_match keys lt la ->
  (g_utf8_strlen_first keys > 2 ->
   forall section,
     (fst (action_search_match_keyword action (Some kw) section gimp) = true
      <-> tt <> []
          /\ Forall (prefix_of_some (tt ++ ta ++ lt ++ la)) keys)
     /\ (fst (action_search_match_keyword action (Some kw) section gimp)
         = true ->
         forall s,
           ((exists k, In k keys /\ ~ prefix_of_some (tt ++ ta) k
                       /\ prefix_of_some (lt ++ la) k) ->
            snd (action_search_match_keyword action (Some kw) (Some s) gimp)
            = Some 5)
           /\ (~ (exists k, In k keys /\ ~ prefix_of_some (tt ++ ta) k
                            /\ prefix_of_some (lt ++ la) k) ->
               snd (action_search_match_keyword action (Some kw) (Some s)
                      gimp)
               = Some 4)))
  /\ (g_utf8_strlen_first keys <= 2 ->
      forall section,
        action_search_match_keyword action (Some kw) section gimp
        = (false, section)).
Proof.
  intros Hk Hl Htip Htt Hno. split.
  - intros Hlong section.
    rewrite (match_keyword_unfold action kw section gimp keys kalts lt la
               Hk Hl).
    rewrite (label_blocks_unmatched keys lt la section Hno).
    pose proof (tooltip_block_spec action gimp keys lt la section
                  tooltip tt ta Htip Htt) as (Hm & _ & _).
    split.
    + rewrite Hm. unfold tooltip_fallback_matches. tauto.
    + intros Hr s.
      rewrite (match_keyword_unfold action kw (Some s) gimp keys kalts lt la
                 Hk Hl).
      rewrite (label_blocks_unmatched keys lt la (Some s) Hno).
      pose proof (tooltip_block_spec action gimp keys lt la (Some s)
                    tooltip tt ta Htip Htt) as (Hm' & _ & Hsec).
      apply Hsec. apply Hm'. apply Hm. exact Hr.
  - intros Hshort section.
    rewrite (match_keyword_unfold action kw section gimp keys kalts lt la
               Hk Hl).
    rewrite (label_blocks_unmatched keys lt la section Hno).
    apply tooltip_block_short_key. exact Hshort.
Qed.
End MatchSections.

(** ** The matcher on examples *)

Ltac no_prefix :=
  let Hp := fresh "Hp" in
  intros Hp; apply (fun l k => proj2 (scan_tokens_found l k 0)) in Hp;
  vm_compute in Hp; discriminate.

Ltac first_match :=
  split;
  [ eexists; split; reflexivity
  | let q := fresh "q" in
    let t := fresh "t" in
    let Hq := fresh "Hq" in
    let Hn := fresh "Hn" in
    intros q t Hq Hn;
    repeat (destruct q as [|q];
            [ simpl in Hn; injection Hn as <-; reflexivity | ]);
    lia ].

Lemma tokenless_keyword_witness :
  @action_search_match_keyword ascii_text gaussian_blur (Some "...")
    (Some 7) gimp_en = (true, Some 1).
Proof.
  apply (@tokenless_keyword_matches ascii_text gaussian_blur "..." (Some 7)
           gimp_en [] ["gaussian"; "blur"] []);
    [reflexivity | reflexivity | discriminate].
Defined.

Lemma two_letter_initials_witness :
  @action_search_match_keyword ascii_text gaussian_blur (Some "GB")
    (Some 7) gimp_en = (true, Some 1).
Proof.
  apply (@two_letter_initials_match ascii_text gaussian_blur "GB" (Some 7)
           gimp_en "gb" [] ["gaussian"; "blur"] [] 103 98);
    [reflexivity | reflexivity | reflexivity | reflexivity | reflexivity |].
  left. exists "gaussian", "blur", []. repeat split.
Defined.

Lemma ordered_prefix_matching_witness :
  @action_search_match_keyword ascii_text gamma_red_green (Some "gre, ga")
    (Some 7) gimp_en = (true, Some 3).
Proof.
  refine (proj2 (proj2 (proj1 (proj2
    (@ordered_prefix_matching ascii_text gamma_red_green "gre, ga" (Some 7)
       gimp_en ["gre"; "ga"] [] ["gamma"; "red"; "green"] []
       eq_refl eq_refl _)) _ [2; 0]%nat 7 _)) _).
  - discriminate.
  - intros (k & Hk & _). discriminate.
  - constructor; [first_match | constructor; [first_match | constructor]].
  - intros Hs. inversion Hs as [|? ? _ Hhd]; subst.
    inversion Hhd; subst. lia.
Defined.

Lemma tooltip_fallback_witness :
  snd (@action_search_match_keyword ascii_text gamma_red_green
         (Some "nic gam") (Some 7) gimp_en) = Some 5.
Proof.
  refine (proj1 (proj2 (proj1
    (@tooltip_fallback ascii_text gamma_red_green "nic gam" gimp_en
       ["nic"; "gam"] [] ["gamma"; "red"; "green"] []
       "Apply a nice filter" ["apply"; "a"; "nice"; "filter"] []
       eq_refl eq_refl eq_refl eq_refl _) _ (Some 7)) _ 7) _).
  - intros [(k & Hk & _) | [_ Hall]]; [discriminate|].
    inversion Hall as [|? ? Hnic _]; subst. revert Hnic. no_prefix.
  - reflexivity.
  - reflexivity.
  - exists "gam". split; [simpl; auto|]. split.
    + no_prefix.
    + exists "gamma". split; [simpl; auto | reflexivity].
Defined.

(** C1 as stated fails where the two-letter initials heuristic steps in:
    "gb" is a prefix of no token of "Gaussian Blur" and the tooltip
    fallback does not match, yet the matcher returns TRUE; and "gr"
    first matches "Gamma Red Green" at position 2, not from the start,
    yet the section is 1 and not 2. *)
Lemma ordered_prefix_initials_counterexample :
  (@g_str_tokenize_and_fold ascii_text "gb" "en" = (["gb"], [])
   /\ @g_str_tokenize_and_fold ascii_text
        (@gimp_strip_uline ascii_text (gtk_action_get_label gaussian_blur))
        "en" = (["gaussian"; "blur"], [])
   /\ ~ prefix_of_some (["gaussian"; "blur"] ++ []) "gb"
   /\ ~ @tooltip_fallback_matches ascii_text ["gb"]
          ["apply"; "a"; "gaussian"; "blur"] [] ["gaussian"; "blur"] []
   /\ fst (@action_search_match_keyword ascii_text gaussian_blur (Some "gb")
             (Some 7) gimp_en) = true)
  /\ (@g_str_tokenize_and_fold ascii_text "gr" "en" = (["gr"], [])
      /\ @g_str_tokenize_and_fold ascii_text
           (@gimp_strip_uline ascii_text
              (gtk_action_get_label gamma_red_green))
           "en" = (["gamma"; "red"; "green"], [])
      /\ Forall2 (first_match_at ["gamma"; "red"; "green"]) ["gr"] [2%nat]
      /\ nondecreasing [2%nat] /\ ~ from_start [2%nat]
      /\ @action_search_match_keyword ascii_text gamma_red_green (Some "gr")
           (Some 7) gimp_en = (true, Some 1)).
Proof.
  split.
  - split; [reflexivity|]. split; [reflexivity|]. split; [no_prefix|].
    split; [|reflexivity].
    intros (Hlong & _). vm_compute in Hlong. discriminate.
  - split; [reflexivity|]. split; [reflexivity|].
    split; [constructor; [first_match | constructor]|].
    split; [repeat constructor|]. split; [|reflexivity].
    unfold from_start. simpl. discriminate.
Qed.

(** ** The ranked results list *)

Lemma results_insert_loop_split (row cur : Row) (rest : list Row) :
  exists above below,
    cur :: rest = above ++ below
    /\ results_insert_loop row cur rest = above ++ row :: below
    /\ Forall (fun r => COLUMN_SECTION r <= COLUMN_SECTION row) above
    /\ match below with
       | [] => True
       | r :: _ => COLUMN_SECTION r > COLUMN_SECTION row
       end.
Proof.
  revert cur. induction rest as [|next rest IH]; intros cur; simpl;
    destruct (Z.gtb_spec (COLUMN_SECTION cur) (COLUMN_SECTION row)) as [Hgt | Hle].
  - exists [], [cur]. simpl. repeat split; auto. lia.
  - exists [cur], []. simpl. repeat split; auto.
  - exists [], (cur :: next :: rest). simpl. repeat split; auto. lia.
  - destruct (IH next) as (above & below & Heq & Hres & Hall & Hhd).
    exists (cur :: above), below. simpl. rewrite Heq, Hres.
    repeat split; auto.
Qed.

Lemma results_insert_split (row : Row) (store : list Row) :
  exists above below,
    store = above ++ below
    /\ results_insert row store = above ++ row :: below
    /\ Forall (fun r => COLUMN_SECTION r <= COLUMN_SECTION row) above
    /\ match below with
       | [] => True
       | r :: _ => COLUMN_SECTION r > COLUMN_SECTION row
       end.
Proof.
  destruct store as [|first rest].
  - exists [], []. simpl. auto.
  - apply results_insert_loop_split.
Qed.

Lemma results_insert_loop_ranked (row cur : Row) (rest : list Row) :
  ranked (cur :: rest) ->
  ranked (results_insert_loop row cur rest)
  /\ forall x, section_le x cur -> section_le x row ->
               HdRel section_le x (results_insert_loop row cur rest).
Proof.
  unfold ranked. revert cur.
  induction rest as [|next rest IH]; intros cur Hs; simpl;
    destruct (Z.gtb_spec (COLUMN_SECTION cur) (COLUMN_SECTION row)) as [Hgt | Hle].
  - split; [|auto]. constructor; [exact Hs|]. constructor.
    unfold section_le. lia.
  - split; [|auto]. repeat constructor. exact Hle.
  - split; [|auto]. constructor; [exact Hs|]. constructor.
    unfold section_le. lia.
  - inversion Hs as [|? ? Hs' Hhd]; subst. inversion Hhd; subst.
    destruct (IH next Hs') as [IHs IHhd]. split; [|auto].
    constructor; [exact IHs|]. apply IHhd; assumption.
Qed.

Lemma results_insert_ranked (row : Row) (store : list Row) :
  ranked store -> ranked (results_insert row store).
Proof.
  destruct store as [|first rest]; simpl.
  - intros _. repeat constructor.
  - intros Hs. apply results_insert_loop_ranked. exact Hs.
Qed.

Lemma ranked_below (above below : list Row) (s : gint) :
  ranked (above ++ below) ->
  match below with
  | [] => True
  | r :: _ => COLUMN_SECTION r > s
  end ->
  Forall (fun r => COLUMN_SECTION r > s) below.
Proof.
  unfold ranked. intros Hs Hhd.
  induction above as [|a above IH].
  - simpl in Hs. destruct below as [|r below]; [constructor|].
    assert (Htrans : Relations_1.Transitive section_le).
    { intros x y z. unfold section_le. lia. }
    apply Sorted_StronglySorted in Hs; [|exact Htrans].
    inversion Hs as [|? ? _ Hall]; subst. constructor; [exact Hhd|].
    rewrite Forall_forall in *. intros x Hx. specialize (Hall x Hx).
    unfold section_le in Hall. lia.
  - apply IH. simpl in Hs. inversion Hs; assumption.
Qed.

Lemma results_insert_cons (row t : Row) (store : list Row) :
  COLUMN_SECTION t <= COLUMN_SECTION row ->
  results_insert row (t :: store) = t :: results_insert row store.
Proof.
  intros Ht. destruct store as [|n l]; simpl;
    destruct (Z.gtb_spec (COLUMN_SECTION t) (COLUMN_SECTION row));
    solve [lia | reflexivity].
Qed.

(** Below a block of rows that do not rank after [row] the insertion
    works on the rest of the store. *)
Lemma results_insert_under (row : Row) (top rest : list Row) :
  Forall (fun r => COLUMN_SECTION r <= COLUMN_SECTION row) top ->
  results_insert row (top ++ rest) = top ++ results_insert row rest.
Proof.
  induction top as [|t top IH]; intros Hall; [reflexivity|].
  inversion Hall as [|? ? Ht Htop]; subst.
  rewrite <- !app_comm_cons, results_insert_cons by exact Ht.
  rewrite IH by exact Htop. reflexivity.
Qed.

(** ** The sections the matcher assigns *)

Section SectionRange.
Context `{GLibText}.

Ltac split_ifs :=
  repeat match goal with
         | |- context [if ?c then _ else _] => destruct c
         end.

Lemma initials_block_range (keys lt la : list string)
    (st : bool * option gint) :
  section_in_range st -> section_in_range (initials_block keys lt la st).
Proof.
  destruct st as [m s]. intros (v & Hs & Hv). simpl in Hs. subst s.
  unfold initials_block, section_in_range. split_ifs; simpl;
    eexists; (split; [reflexivity|]); solve [lia | exact Hv].
Qed.

Lemma prefix_block_range (keys lt la : list string)
    (st : bool * option gint) :
  section_in_range st -> section_in_range (prefix_block keys lt la st).
Proof.
  destruct st as [m s]. intros (v & Hs & Hv). simpl in Hs. subst s.
  unfold prefix_block, section_in_range.
  destruct (negb m && (g_strv_length lt >? 0)); [|exists v; auto].
  destruct (ps_matched (prefix_loop lt la keys 0 _)); simpl.
  - split_ifs; eexists; (split; [reflexivity | lia]).
  - exists v. split; [reflexivity | discriminate].
Qed.

Lemma tooltip_block_range (action : GtkAction) (gimp : Gimp)
    (keys lt la : list string) (st : bool * option gint) :
  section_in_range st -> section_in_range (tooltip_block action gimp keys lt la st).
Proof.
  destruct st as [m s]. intros (v & Hs & Hv). simpl in Hs. subst s.
  unfold tooltip_block, section_in_range.
  destruct (gtk_action_get_tooltip action) as [tooltip|]; [|exists v; auto].
  destruct (negb m && (g_utf8_strlen_first keys >? 2)); [|exists v; auto].
  destruct (g_str_tokenize_and_fold tooltip (config_language gimp))
    as [tt ta].
  destruct (g_strv_length tt >? 0); [|exists v; auto].
  destruct (tooltip_loop tt ta lt la keys (true, false)) as [m' mixed].
  destruct m'; simpl.
  - destruct mixed; eexists; (split; [reflexivity | lia]).
  - exists v. split; [reflexivity | discriminate].
Qed.

(** Whenever the matcher returns TRUE with a section location supplied,
    it has written one of the ranks 0 to 5 there. *)
Lemma match_keyword_section_range (action : GtkAction)
    (keyword : option string) (u : gint) (gimp : Gimp) :
  section_in_range (action_search_match_keyword action keyword (Some u) gimp).
Proof.
  unfold action_search_match_keyword. destruct keyword as [kw|].
  - destruct (g_str_tokenize_and_fold
                (gimp_strip_uline (gtk_action_get_label action))
                (config_language gimp)) as [lt la].
    apply tooltip_block_range, prefix_block_range, initials_block_range.
    exists u. split; [reflexivity | discriminate].
  - exists 0. simpl. split; [reflexivity | lia].
Qed.
End SectionRange.

(** ** action_search_add_to_results_list and the driver *)

Section ResultsList.
Context `{GLibText} `{ActionEnv}.

Lemma add_to_results_list_spec (action : GtkAction) (private : SearchDialog)
    (section : gint) :
  action_search_add_to_results_list action private section =
  if has_label action
  then {| private_gimp := private_gimp private;
          results_list :=
            results_insert (row_of action section) (results_list private) |}
  else private.
Proof.
  unfold action_search_add_to_results_list, has_label, row_of.
  destruct (String.length
              (g_strstrip (gimp_strip_uline (gtk_action_get_label action)))
            =? 0)%nat; reflexivity.
Qed.

Lemma add_to_results_list_gimp (action : GtkAction) (private : SearchDialog)
    (section : gint) :
  private_gimp (action_search_add_to_results_list action private section)
  = private_gimp private.
Proof.
  rewrite add_to_results_list_spec. destruct (has_label action); reflexivity.
Qed.

Lemma add_to_results_list_ranked (action : GtkAction) (private : SearchDialog)
    (section : gint) :
  ranked (results_list private) ->
  ranked (results_list
            (action_search_add_to_results_list action private section)).
Proof.
  intros Hr. rewrite add_to_results_list_spec.
  destruct (has_label action); [|exact Hr].
  apply results_insert_ranked. exact Hr.
Qed.

Lemma add_history_actions (gimp : Gimp) (history : list GtkAction)
    (store : list Row) :
  Forall (fun r => COLUMN_SECTION r <= 0) store ->
  fold_left (fun p a => action_search_add_to_results_list a p 0) history
    {| private_gimp := gimp; results_list := store |}
  = {| private_gimp := gimp;
       results_list :=
         store ++ map (fun a => row_of a 0) (filter has_label history) |}.
Proof.
  revert store. induction history as [|a history IH]; intros store Hall; simpl.
  - rewrite app_nil_r. reflexivity.
  - rewrite add_to_results_list_spec. destruct (has_label a); simpl.
    + replace (results_insert (row_of a 0) store)
        with (store ++ [row_of a 0]).
      * rewrite IH.
        -- rewrite <- app_assoc. reflexivity.
        -- apply Forall_app. split; [exact Hall|]. repeat constructor.
           simpl. lia.
      * rewrite <- (app_nil_r store) at 2.
        rewrite results_insert_under by exact Hall. reflexivity.
    + apply IH. exact Hall.
Qed.

Lemma add_below_history (gimp : Gimp) (top : list Row) (action : GtkAction)
    (p : SearchDialog) (section : gint) :
  Forall (fun r => COLUMN_SECTION r = 0) top ->
  0 <= section ->
  history_on_top gimp top p ->
  history_on_top gimp top
    (action_search_add_to_results_list action p section).
Proof.
  intros Htop Hsec (Hg & Hr & rest & Heq & Hrest). split; [|split].
  - rewrite add_to_results_list_gimp. exact Hg.
  - apply add_to_results_list_ranked. exact Hr.
  - rewrite add_to_results_list_spec.
    destruct (has_label action); [|exists rest; auto]. simpl.
    exists (results_insert (row_of action section) rest). split.
    + rewrite Heq. apply results_insert_under.
      rewrite Forall_forall in *. intros r Hin. rewrite (Htop r Hin).
      exact Hsec.
    + destruct (results_insert_split (row_of action section) rest)
        as (above & below & Hsplit & -> & _).
      subst rest. apply Forall_app in Hrest. destruct Hrest as [Ha Hb].
      apply Forall_app. split; [exact Ha|]. constructor; [exact Hsec | exact Hb].
Qed.

Lemma search_one_action_below_history (gimp : Gimp) (top : list Row)
    (keyword : option string) (history : list GtkAction) (uninit : gint)
    (p : SearchDialog) (action : GtkAction) :
  Forall (fun r => COLUMN_SECTION r = 0) top ->
  history_on_top gimp top p ->
  history_on_top gimp top
    (search_one_action keyword history uninit p action).
Proof.
  intros Htop Hp. unfold search_one_action.
  destruct (gimp_action_history_excluded_action _ && _ && _); [exact Hp|].
  destruct (negb _ && negb _); [exact Hp|].
  pose proof (match_keyword_section_range action keyword uninit
                (private_gimp p)) as (v & Hv & Hrange).
  destruct (action_search_match_keyword action keyword (Some uninit)
              (private_gimp p)) as [m sec].
  simpl in Hv, Hrange. subst sec. destruct m; [|exact Hp].
  destruct (is_redundant history (gtk_action_get_name action)); [exact Hp|].
  apply add_below_history; auto. lia.
Qed.

Lemma fold_left_invariant {A B : Type} (P : A -> Prop) (f : A -> B -> A)
    (l : list B) (a : A) :
  (forall x b, P x -> P (f x b)) -> P a -> P (fold_left f l a).
Proof.
  intros Hstep. revert a. induction l as [|b l IH]; intros a Ha; simpl; auto.
Qed.

(** C4: [action_search_add_to_results_list] puts the new row immediately
    before the first row whose section is strictly greater than the new
    one's, or at the end when there is none (no row is added for an
    action whose stripped label is empty); a ranked store stays ranked,
    the rows above and below keep their order, and in a ranked store the
    new row comes after every row of the same section; hence, in a
    search started on the cleared store, the history actions, added
    first with section 0, stay on top. *)
Theorem results_list_ranking :
  (forall action private section,
      has_label action = true ->
      exists above below,
        results_list private = above ++ below
        /\ results_list
             (action_search_add_to_results_list action private section)
           = above ++ row_of action section :: below
        /\ Forall (fun r => COLUMN_SECTION r <= section) above
        /\ match below with
           | [] => True
           | r :: _ => COLUMN_SECTION r > section
           end
        /\ (ranked (results_list private) ->
            Forall (fun r => COLUMN_SECTION r > section) below))
  /\ (forall action private section,
         has_label action = false ->
         action_search_add_to_results_list action private section = private)
  /\ (forall action private section,
         ranked (results_list private) ->
         ranked (results_list
                   (action_search_add_to_results_list action private section)))
  /\ (forall keyword gimp uninit,
         keyword <> Some EmptyString ->
         let private' :=
           action_search_history_and_actions keyword (cleared gimp) uninit in
         ranked (results_list private')
         /\ Forall (fun r => COLUMN_SECTION r = 0) (history_rows keyword gimp)
         /\ exists rest,
              results_list private' = history_rows keyword gimp ++ rest
              /\ Forall (fun r => 0 <= COLUMN_SECTION r) rest).
Proof.
  split; [|split; [|split]].
  - intros action private section Hlabel.
    rewrite add_to_results_list_spec, Hlabel. simpl.
    destruct (results_insert_split (row_of action section)
                (results_list private))
      as (above & below & Hsplit & Hres & Habove & Hbelow).
    exists above, below. repeat split; auto.
    intros Hr. rewrite Hsplit in Hr.
    apply (ranked_below above below section Hr Hbelow).
  - intros action private section Hlabel.
    rewrite add_to_results_list_spec, Hlabel. reflexivity.
  - intros action private section. apply add_to_results_list_ranked.
  - intros keyword gimp uninit Hkw private'.
    assert (Htop : Forall (fun r => COLUMN_SECTION r = 0)
                     (history_rows keyword gimp)).
    { unfold history_rows. apply Forall_forall. intros r Hin.
      apply in_map_iff in Hin. destruct Hin as (a & <- & _). reflexivity. }
    assert (Hinv : history_on_top gimp (history_rows keyword gimp) private').
    { subst private'. unfold action_search_history_and_actions.
      assert (Hrun :
        history_on_top gimp (history_rows keyword gimp)
          (fold_left
             (fun p group =>
                fold_left
                  (search_one_action keyword
                     (gimp_action_history_search gimp
                        action_search_match_keyword keyword) uninit)
                  group p)
             image_manager_action_groups
             (fold_left
                (fun p a => action_search_add_to_results_list a p 0)
                (gimp_action_history_search gimp
                   action_search_match_keyword keyword)
                (cleared gimp)))).
      { apply fold_left_invariant.
        - intros p group Hp. apply fold_left_invariant; [|exact Hp].
          intros q a Hq. apply search_one_action_below_history; assumption.
        - unfold cleared. rewrite add_history_actions by constructor.
          simpl. split; [reflexivity|]. split.
          + fold (history_rows keyword gimp).
            clear - Htop. induction Htop as [|r l Hr Hl IH]; [constructor|].
            constructor; [exact IH|]. destruct Hl as [|r' l' Hr' _];
              constructor. unfold section_le. lia.
          + exists []. rewrite app_nil_r. split; [reflexivity | constructor]. }
      destruct keyword as [[|c kw]|]; [congruence | exact Hrun | exact Hrun]. }
    destruct Hinv as (_ & Hranked & Hrest). auto.
Qed.
End ResultsList.

(** A keyword token found only among the label alternates takes its
    position from the alternates vector: "ete" is the third word of the
    label and the first alternate, so it ranks as a match from the start,
    and "d ete", in the order of the label, ranks as out of order.  The
    accented keyword is found among the label tokens, at position 2. *)
Example alternate_positions :
  @g_str_tokenize_and_fold latin_text (gtk_action_get_label flou_ete) "fr"
  = (["flou"; "d"; (e_acute ++ "t" ++ e_acute)%string], ["ete"])
  /\ @action_search_match_keyword latin_text flou_ete (Some "ete")
       (Some 7) gimp_en = (true, Some 1)
  /\ @action_search_match_keyword latin_text flou_ete (Some "d ete")
       (Some 7) gimp_en = (true, Some 3)
  /\ @action_search_match_keyword latin_text flou_ete
       (Some (e_acute ++ "t")%string) (Some 7) gimp_en = (true, Some 2).
Proof. repeat split. Qed.

(** The position of a keyword token is that of the first label token it
    is a prefix of: on the label "Ab a" the keyword "ab a" finds "a" at
    position 0, so the match does not count as one from the start. *)
Example first_match_positions :
  @action_search_match_keyword ascii_text (mk_action "ab-a" "Ab a" None)
    (Some "ab a") (Some 7) gimp_en = (true, Some 2).
Proof. reflexivity. Qed.

(** ** The matcher and the driver on the example application *)

Example search_blur :
  map (fun r => (gtk_action_get_name (COLUMN_ACTION r), COLUMN_SECTION r))
    (results_list
       (@action_search_history_and_actions ascii_text example_env
          (Some "blur") (cleared gimp_en) 99))
  = [("filters-motion-blur", 0); ("filters-blur", 1);
     ("filters-gaussian-blur", 2); ("colors-blur-hue", 2);
     ("filters-pixelize", 4)].
Proof. vm_compute. reflexivity. Qed.

(* ------------------------------------------------------------------ *)
(** ** GimpConfig: the dispatchers                                      *)
(* ------------------------------------------------------------------ *)

Section Dispatch.
Context `{ConfigEnv}.

Lemma not_config_cases (config : option GObject) :
  GIMP_IS_CONFIG config = false ->
  config = None
  \/ exists o, config = Some o /\ GIMP_CONFIG_GET_INTERFACE o = None.
Proof.
  unfold GIMP_IS_CONFIG. destruct config as [o|]; [|auto].
  destruct (GIMP_CONFIG_GET_INTERFACE o) eqn:E; [discriminate|].
  intros _. right. exists o. auto.
Qed.

Lemma with_config_invalid {A} (config : option GObject) (fail : A)
    (k : GObject -> GimpConfigInterface World -> M World A)
    (st : State World) :
  GIMP_IS_CONFIG config = false ->
  with_config config fail k st = Returns fail st.
Proof.
  intros Hno. unfold with_config.
  destruct (not_config_cases config Hno) as [-> | (o & -> & ->)]; reflexivity.
Qed.

Lemma with_config_valid {A} (o : GObject) (iface : GimpConfigInterface World)
    (fail : A) (k : GObject -> GimpConfigInterface World -> M World A) :
  GIMP_CONFIG_GET_INTERFACE o = Some iface ->
  with_config (Some o) fail k = k o iface.
Proof. intros Hi. unfold with_config. rewrite Hi. reflexivity. Qed.

Lemma call_serialize_spec (iface : GimpConfigInterface World) (o : GObject)
    (writer : GimpConfigWriter) (data : gpointer) (st : State World) :
  call_serialize iface o writer data st =
  Returns (fst (serialize iface o writer data (world st)))
    {| world := snd (serialize iface o writer data (world st));
       calls := calls st ++ [Call_serialize o writer data] |}.
Proof.
  unfold call_serialize, bind, record_call, ext. simpl.
  destruct (serialize iface o writer data (world st)). reflexivity.
Qed.

Lemma call_deserialize_spec (iface : GimpConfigInterface World) (o : GObject)
    (scanner : option GScanner) (nest_level : gint) (data : gpointer)
    (st : State World) :
  call_deserialize iface o scanner nest_level data st =
  Returns (fst (deserialize iface o scanner nest_level data (world st)))
    {| world := snd (deserialize iface o scanner nest_level data (world st));
       calls := calls st ++ [Call_deserialize o scanner nest_level data] |}.
Proof.
  unfold call_deserialize, bind, record_call, ext. simpl.
  destruct (deserialize iface o scanner nest_level data (world st)).
  reflexivity.
Qed.

(** C7: for a valid GimpConfig, [gimp_config_serialize] and
    [gimp_config_deserialize] invoke the callback of the object's
    interface once, on the arguments they were given, and return its
    value with the state it left; for an invalid config both return
    FALSE and invoke nothing. *)
Theorem thin_dispatch :
  (forall o iface writer data st,
      GIMP_CONFIG_GET_INTERFACE o = Some iface ->
      gimp_config_serialize (Some o) writer data st =
      Returns (fst (serialize iface o writer data (world st)))
        {| world := snd (serialize iface o writer data (world st));
           calls := calls st ++ [Call_serialize o writer data] |})
  /\ (forall o iface scanner nest_level data st,
         GIMP_CONFIG_GET_INTERFACE o = Some iface ->
         gimp_config_deserialize (Some o) scanner nest_level data st =
         Returns
           (fst (deserialize iface o scanner nest_level data (world st)))
           {| world :=
                snd (deserialize iface o scanner nest_level data (world st));
              calls :=
                calls st ++ [Call_deserialize o scanner nest_level data] |})
  /\ (forall config writer scanner nest_level data st,
         GIMP_IS_CONFIG config = false ->
         gimp_config_serialize config writer data st = Returns false st
         /\ gimp_config_deserialize config scanner nest_level data st
            = Returns false st).
Proof.
  split; [|split].
  - intros o iface writer data st Hi. unfold gimp_config_serialize.
    rewrite (with_config_valid o iface) by exact Hi.
    apply call_serialize_spec.
  - intros o iface scanner nest_level data st Hi.
    unfold gimp_config_deserialize.
    rewrite (with_config_valid o iface) by exact Hi.
    apply call_deserialize_spec.
  - intros config writer scanner nest_level data st Hno.
    unfold gimp_config_serialize, gimp_config_deserialize.
    rewrite !with_config_invalid by exact Hno. auto.
Qed.
End Dispatch.

(** ** GimpConfig: serialization *)

Section Serialize.
Context `{ConfigEnv}.

Lemma with_clear_error_pass {A} (error : bool) (fail : A) (k : M World A)
    (st : State World) :
  negb error || negb (error_is_set (world st)) = true ->
  with_clear_error error fail k st = k st.
Proof.
  intros Hok. unfold with_clear_error, bind, read. rewrite Hok. reflexivity.
Qed.

Lemma serialize_to_file_spec (o : GObject) (iface : GimpConfigInterface World)
    (name : string) (header footer : option string) (data : gpointer)
    (error : bool) (st : State World) :
  GIMP_CONFIG_GET_INTERFACE o = Some iface ->
  negb error || negb (error_is_set (world st)) = true ->
  gimp_config_serialize_to_file (Some o) (Some name) header footer data
    error st =
  match gimp_config_writer_new_file name true header error (world st) with
  | (None, w1) => Returns false {| world := w1; calls := calls st |}
  | (Some wr, w1) =>
      let w2 := snd (serialize iface o wr data w1) in
      Returns (fst (gimp_config_writer_finish wr footer error w2))
        {| world := snd (gimp_config_writer_finish wr footer error w2);
           calls := calls st ++ [Call_serialize o wr data] |}
  end.
Proof.
  intros Hi Hok. unfold gimp_config_serialize_to_file.
  rewrite (with_config_valid o iface) by exact Hi.
  rewrite with_clear_error_pass by exact Hok.
  unfold bind at 1. unfold ext at 1.
  destruct (gimp_config_writer_new_file name true header error (world st))
    as [[wr|] w1]; [|reflexivity].
  unfold bind. rewrite call_serialize_spec. unfold ext. simpl.
  destruct (gimp_config_writer_finish wr footer error
              (snd (serialize iface o wr data w1))). reflexivity.
Qed.

Lemma serialize_to_string_spec (o : GObject)
    (iface : GimpConfigInterface World) (data : gpointer) (st : State World) :
  GIMP_CONFIG_GET_INTERFACE o = Some iface ->
  let '(str, w1) := g_string_new (world st) in
  let '(wr, w2) := gimp_config_writer_new_string str w1 in
  let w3 := snd (serialize iface o wr data w2) in
  let w4 := snd (gimp_config_writer_finish wr None false w3) in
  gimp_config_serialize_to_string (Some o) data st =
  Returns (Some (fst (g_string_free str w4)))
    {| world := snd (g_string_free str w4);
       calls := calls st ++ [Call_serialize o wr data] |}.
Proof.
  intros Hi. unfold gimp_config_serialize_to_string.
  rewrite (with_config_valid o iface) by exact Hi.
  unfold bind at 1. unfold ext at 1.
  destruct (g_string_new (world st)) as [str w1].
  unfold bind at 1. unfold ext at 1. simpl.
  destruct (gimp_config_writer_new_string str w1) as [wr w2].
  unfold bind. rewrite call_serialize_spec. unfold ext, ret. simpl.
  destruct (gimp_config_writer_finish wr None false
              (snd (serialize iface o wr data w2))) as [r w4]. simpl.
  destruct (g_string_free str w4). reflexivity.
Qed.
End Serialize.

Ltac case_if :=
  match goal with
  | |- context [if ?c then _ else _] => destruct c
  end.

Ltac case_let :=
  match goal with
  | |- context [let '(_, _) := ?x in _] =>
      lazymatch x with
      | context [let '(_, _) := _ in _] => fail
      | _ => destruct x
      end
  end.

Ltac case_option :=
  match goal with
  | |- context [match ?x with Some _ => _ | None => _ end] =>
      is_var x; destruct x
  end.

(** C10: [gimp_config_serialize_to_file] returns FALSE when the writer
    cannot be created and otherwise what [gimp_config_writer_finish]
    returns after the callback has run; replacing the boolean the
    [serialize] callback returns changes nothing.  For a valid config
    [gimp_config_serialize_to_string] returns a string, and replacing
    the booleans of the callback and of [gimp_config_writer_finish]
    changes nothing. *)
Theorem serialize_ignores_callback_result (env : ConfigEnv) :
  (forall o iface name header footer data error st,
      GIMP_CONFIG_GET_INTERFACE o = Some iface ->
      negb error || negb (error_is_set (world st)) = true ->
      gimp_config_serialize_to_file (Some o) (Some name) header footer data
        error st =
      match gimp_config_writer_new_file name true header error (world st) with
      | (None, w1) => Returns false {| world := w1; calls := calls st |}
      | (Some wr, w1) =>
          let w2 := snd (serialize iface o wr data w1) in
          Returns (fst (gimp_config_writer_finish wr footer error w2))
            {| world := snd (gimp_config_writer_finish wr footer error w2);
               calls := calls st ++ [Call_serialize o wr data] |}
      end)
  /\ (forall ser config filename header footer data error st,
         @gimp_config_serialize_to_file (with_results ser (fun r => r) env)
           config filename header footer data error st
         = @gimp_config_serialize_to_file env
             config filename header footer data error st)
  /\ (forall o iface data st,
         GIMP_CONFIG_GET_INTERFACE o = Some iface ->
         exists s st',
           gimp_config_serialize_to_string (Some o) data st
           = Returns (Some s) st')
  /\ (forall ser fin config data st,
         @gimp_config_serialize_to_string (with_results ser fin env)
           config data st
         = @gimp_config_serialize_to_string env config data st).
Proof.
  split; [|split; [|split]].
  - intros. apply serialize_to_file_spec; assumption.
  - intros ser config filename header footer data error st.
    destruct env. destruct config as [o|]; [|reflexivity].
    cbv beta iota zeta delta
      [gimp_config_serialize_to_file with_config GIMP_CONFIG_GET_INTERFACE
       with_clear_error bind read ext call_serialize record_call ret
       with_results World config_iface error_is_set
       gimp_config_writer_new_file gimp_config_writer_finish].
    destruct (config_iface0 (G_TYPE_FROM_INSTANCE o)) as [i|]; [|reflexivity].
    destruct filename as [name|]; [|reflexivity].
    case_if; [|reflexivity].
    case_let; case_option; [|reflexivity].
    simpl. case_let. simpl. case_let. reflexivity.
  - intros o iface data st Hi.
    pose proof (serialize_to_string_spec o iface data st Hi) as Hs.
    destruct (g_string_new (world st)) as [str w1].
    destruct (gimp_config_writer_new_string str w1) as [wr w2].
    cbv zeta in Hs. eauto.
  - intros ser fin config data st.
    destruct env. destruct config as [o|]; [|reflexivity].
    cbv beta iota zeta delta
      [gimp_config_serialize_to_string with_config GIMP_CONFIG_GET_INTERFACE
       bind read ext call_serialize record_call ret
       with_results World config_iface g_string_new g_string_free
       gimp_config_writer_new_string gimp_config_writer_finish].
    destruct (config_iface0 (G_TYPE_FROM_INSTANCE o)) as [i|]; [|reflexivity].
    case_let. simpl. case_let. simpl. case_let. simpl. case_let. simpl.
    case_let. reflexivity.
Qed.

Example serialize_to_file_example :
  @gimp_config_serialize_to_file example_config
    (Some (ex_leaf 100 3)) (Some "/home/me/gimprc") None None 0 true ex_state
  = Returns true
      {| world := {| ex_error := false; ex_text := "(width 3)";
                     ex_frozen := 0 |};
         calls := [Call_serialize (ex_leaf 100 3) 10 0] |}.
Proof. reflexivity. Qed.

Example serialize_to_string_example :
  @gimp_config_serialize_to_string example_config (Some (ex_leaf 100 3)) 0
    ex_state
  = Returns (Some "(width 3)")
      {| world := {| ex_error := false; ex_text := "(width 3)";
                     ex_frozen := 0 |};
         calls := [Call_serialize (ex_leaf 100 3) 11 0] |}.
Proof. reflexivity. Qed.

(** ** GimpConfig: deserialization *)

Section Deserialize.
Context `{ConfigEnv}.

Lemma deserialize_with_scanner_spec (iface : GimpConfigInterface World)
    (o : GObject) (scanner : option GScanner) (data : gpointer)
    (error : bool) (st : State World) :
  deserialize_with_scanner iface o scanner data error st
  = deserialize_outcome iface o scanner data error st.
Proof.
  unfold deserialize_with_scanner, deserialize_outcome.
  unfold bind at 1. unfold ext_ at 1, ext at 1. simpl.
  unfold bind at 1. rewrite call_deserialize_spec. simpl.
  destruct (deserialize iface o scanner 0 data
              (g_object_freeze_notify o (world st))) as [success w].
  simpl. unfold bind, ext_, ext, read, g_assert, ret. simpl.
  destruct success; simpl; [reflexivity|].
  destruct (negb error
            || error_is_set
                 (gimp_scanner_destroy scanner (g_object_thaw_notify o w)));
    reflexivity.
Qed.

(** What the callback path guarantees. *)
Lemma deserialize_outcome_returns (iface : GimpConfigInterface World)
    (o : GObject) (scanner : option GScanner) (data : gpointer)
    (error : bool) (st : State World) (b : bool) (st' : State World) :
  deserialize_outcome iface o scanner data error st = Returns b st' ->
  b = fst (deserialize iface o scanner 0 data
             (g_object_freeze_notify o (world st)))
  /\ calls st' = calls st ++ [Call_deserialize o scanner 0 data]
  /\ (b = false -> error = true -> error_is_set (world st') = true).
Proof.
  unfold deserialize_outcome.
  destruct (deserialize iface o scanner 0 data
              (g_object_freeze_notify o (world st))) as [success w].
  simpl. destruct success.
  - intros Hr. injection Hr as <- <-. simpl. repeat split. discriminate.
  - destruct (negb error
              || error_is_set
                   (gimp_scanner_destroy scanner (g_object_thaw_notify o w)))
      eqn:Ha; [|discriminate].
    intros Hr. injection Hr as <- <-. simpl. repeat split.
    intros _ ->. simpl in Ha. exact Ha.
Qed.

Lemma deserialize_outcome_success (iface : GimpConfigInterface World)
    (o : GObject) (scanner : option GScanner) (data : gpointer)
    (error : bool) (st : State World) :
  fst (deserialize iface o scanner 0 data
         (g_object_freeze_notify o (world st))) = true ->
  exists st', deserialize_outcome iface o scanner data error st
              = Returns true st'.
Proof.
  unfold deserialize_outcome.
  destruct (deserialize iface o scanner 0 data
              (g_object_freeze_notify o (world st))) as [success w].
  simpl. intros ->. eauto.
Qed.


End Deserialize.


(** In the example system a text is always scanned: the callback is
    invoked once on the scanner of the text, and its result returned;
    a NULL text with a length is refused at the entry. *)
Example deserialize_string_examples :
  @gimp_config_deserialize_string example_config
    (Some (ex_leaf 100 3)) (Some "(width 3)") (-1) 0 true ex_state
  = Returns true
      {| world := ex_world;
         calls := [Call_deserialize (ex_leaf 100 3) (Some 33) 0 0] |}
  /\ @gimp_config_deserialize_string example_config
       (Some (ex_leaf 100 3)) None 0 0 true ex_state
     = Returns true
         {| world := ex_world;
            calls := [Call_deserialize (ex_leaf 100 3) (Some 33) 0 0] |}
  /\ @gimp_config_deserialize_string example_config
       (Some (ex_leaf 100 3)) None 5 0 true ex_state
     = Returns false ex_state.
Proof. repeat split. Qed.

(** ** GimpConfig: the default equality *)

Section Equality.
Context `{ConfigEnv}.

Lemma equal_loop_false (rec : GObject -> option GObject -> bool)
    (b : GObject) (specs : list (GParamSpec * GValue)) :
  equal_loop rec b specs false = false.
Proof. destruct specs; reflexivity. Qed.

(** The recursive call of line 224 on the values of a property. *)
Lemma is_equal_to_values (a_value b_value : GValue) :
  gimp_config_is_equal_to (g_value_get_object a_value)
    (g_value_get_object b_value)
  = match a_value with
    | GV_object (Some a') =>
        is_equal_to_object a' (g_value_get_object b_value)
    | _ => false
    end.
Proof. destruct a_value as [d | [a'|]]; reflexivity. Qed.

Lemma equal_loop_cons (b : GObject) (spec : GParamSpec) (a_value : GValue)
    (rest : list (GParamSpec * GValue)) :
  equal_loop is_equal_to_object b ((spec, a_value) :: rest) true =
  if negb (readable (spec, a_value))
  then equal_loop is_equal_to_object b rest true
  else if (g_param_values_cmp spec a_value (g_object_get_property b spec)
           =? 0)
          || (has_flag (pspec_flags spec) GIMP_CONFIG_PARAM_AGGREGATE
              && G_IS_PARAM_SPEC_OBJECT spec
              && GIMP_IS_CONFIG_TYPE_of spec
              && gimp_config_is_equal_to (g_value_get_object a_value)
                   (g_value_get_object (g_object_get_property b spec)))
       then equal_loop is_equal_to_object b rest true
       else false.
Proof.
  rewrite is_equal_to_values. unfold readable. cbn [equal_loop negb fst].
  destruct (has_flag (pspec_flags spec) G_PARAM_READABLE); [|reflexivity].
  cbn [negb].
  destruct (g_param_values_cmp spec a_value (g_object_get_property b spec)
            =? 0); [reflexivity|].
  cbn [negb orb].
  destruct (has_flag (pspec_flags spec) GIMP_CONFIG_PARAM_AGGREGATE
            && G_IS_PARAM_SPEC_OBJECT spec && GIMP_IS_CONFIG_TYPE_of spec);
    cbn [andb]; [|apply equal_loop_false].
  destruct a_value as [d | [a'|]]; try apply equal_loop_false.
  destruct (is_equal_to_object a' _); cbn [negb];
    [reflexivity | apply equal_loop_false].
Qed.

Lemma property_equal_test (b : GObject) (spec : GParamSpec)
    (a_value : GValue) :
  (g_param_values_cmp spec a_value (g_object_get_property b spec) =? 0)
  || (has_flag (pspec_flags spec) GIMP_CONFIG_PARAM_AGGREGATE
      && G_IS_PARAM_SPEC_OBJECT spec
      && GIMP_IS_CONFIG_TYPE_of spec
      && gimp_config_is_equal_to (g_value_get_object a_value)
           (g_value_get_object (g_object_get_property b spec))) = true
  <-> property_equal b (spec, a_value).
Proof.
  unfold property_equal.
  rewrite orb_true_iff, !andb_true_iff, Z.eqb_eq. tauto.
Qed.

Lemma equal_loop_spec (b : GObject) (specs : list (GParamSpec * GValue)) :
  equal_loop is_equal_to_object b specs true = true
  <-> forall p, In p specs -> readable p = true -> property_equal b p.
Proof.
  induction specs as [|[spec a_value] rest IH].
  - simpl. split; [intros _ p [] | reflexivity].
  - rewrite equal_loop_cons.
    destruct (readable (spec, a_value)) eqn:Er; cbn [negb].
    + pose proof (property_equal_test b spec a_value) as Ht.
      match type of Ht with
      | ?c = true <-> _ => destruct c
      end.
      * rewrite IH. split.
        -- intros Hrest p [<- | Hin] Hp; [apply Ht; reflexivity | auto].
        -- intros Hall p Hin. apply Hall. right. exact Hin.
      * split; [discriminate|]. intros Hall.
        apply Ht, Hall; [left; reflexivity | exact Er].
    + rewrite IH. split.
      * intros Hrest p [<- | Hin] Hp; [congruence | auto].
      * intros Hall p Hin. apply Hall. right. exact Hin.
Qed.

Lemma equal_loop_readable (b : GObject) (specs : list (GParamSpec * GValue)) :
  equal_loop is_equal_to_object b (filter readable specs) true
  = equal_loop is_equal_to_object b specs true.
Proof.
  induction specs as [|[spec a_value] rest IH]; [reflexivity|].
  cbn [filter]. rewrite (equal_loop_cons b spec a_value rest).
  destruct (readable (spec, a_value)) eqn:Er; cbn [negb]; [|exact IH].
  rewrite equal_loop_cons, Er, IH. reflexivity.
Qed.

(** [gimp_config_is_equal_to] as the source has it: three checks, then
    the [equal] slot of [a]'s interface. *)
Lemma gimp_config_is_equal_to_unfold (a b : GObject)
    (iface : GimpConfigInterface World) :
  GIMP_CONFIG_GET_INTERFACE a = Some iface ->
  gimp_config_is_equal_to (Some a) (Some b) =
  if negb (GIMP_IS_CONFIG (Some b)) then false
  else if negb (G_TYPE_FROM_INSTANCE a =? G_TYPE_FROM_INSTANCE b) then false
  else match equal iface with
       | class_equal f => f a b
       | default_equal => gimp_config_iface_equal a b
       end.
Proof.
  intros Hi. unfold gimp_config_is_equal_to, gimp_config_iface_equal.
  destruct a as [addr t props]. cbn [is_equal_to_object object_props].
  rewrite Hi. reflexivity.
Qed.

(** C6: for two GimpConfig objects of the same type whose interface has
    the default [equal], [gimp_config_is_equal_to] is
    [gimp_config_iface_equal], and it returns TRUE exactly when every
    readable property compares equal under [g_param_values_cmp] or is an
    aggregate object property of a GimpConfig type whose two values are
    equal for [gimp_config_is_equal_to]; removing the non-readable
    properties does not change the result. *)
Theorem default_equality (a b : GObject) (iface : GimpConfigInterface World) :
  GIMP_CONFIG_GET_INTERFACE a = Some iface ->
  GIMP_IS_CONFIG (Some b) = true ->
  G_TYPE_FROM_INSTANCE a = G_TYPE_FROM_INSTANCE b ->
  equal iface = default_equal ->
  gimp_config_is_equal_to (Some a) (Some b) = gimp_config_iface_equal a b
  /\ (gimp_config_is_equal_to (Some a) (Some b) = true
      <-> forall p, In p (object_props a) -> readable p = true ->
                    property_equal b p)
  /\ gimp_config_is_equal_to (Some (readable_part a)) (Some b)
     = gimp_config_is_equal_to (Some a) (Some b).
Proof.
  intros Hi Hb Ht Heq.
  assert (Hdef : gimp_config_is_equal_to (Some a) (Some b)
                 = gimp_config_iface_equal a b).
  { rewrite (gimp_config_is_equal_to_unfold a b iface Hi).
    rewrite Hb, Ht, Z.eqb_refl, Heq. reflexivity. }
  split; [exact Hdef|]. split.
  - rewrite Hdef. apply equal_loop_spec.
  - assert (Hi' : GIMP_CONFIG_GET_INTERFACE (readable_part a) = Some iface).
    { destruct a. exact Hi. }
    rewrite (gimp_config_is_equal_to_unfold (readable_part a) b iface Hi').
    replace (G_TYPE_FROM_INSTANCE (readable_part a))
      with (G_TYPE_FROM_INSTANCE a) by (destruct a; reflexivity).
    rewrite Hb, Ht, Z.eqb_refl, Heq, Hdef. cbn [negb].
    unfold gimp_config_iface_equal. destruct a as [addr t props].
    apply equal_loop_readable.
Qed.
End Equality.

(** Two configs at different addresses with equal widths, different
    write-only secrets and children that are distinct but equal objects
    are equal; a different width in the child makes them differ. *)
Lemma default_equality_witness :
  @gimp_config_is_equal_to example_config
    (Some (ex_config 100 3 7 (Some (ex_leaf 101 5))))
    (Some (ex_config 200 3 8 (Some (ex_leaf 201 5))))
  = @gimp_config_iface_equal example_config
      (ex_config 100 3 7 (Some (ex_leaf 101 5)))
      (ex_config 200 3 8 (Some (ex_leaf 201 5))).
Proof.
  exact (proj1 (@default_equality example_config
                  (ex_config 100 3 7 (Some (ex_leaf 101 5)))
                  (ex_config 200 3 8 (Some (ex_leaf 201 5)))
                  (ex_iface false) eq_refl eq_refl eq_refl eq_refl)).
Defined.

Example equality_examples :
  @gimp_config_is_equal_to example_config
    (Some (ex_config 100 3 7 (Some (ex_leaf 101 5))))
    (Some (ex_config 200 3 8 (Some (ex_leaf 201 5)))) = true
  /\ @gimp_config_is_equal_to example_config
       (Some (ex_config 100 3 7 (Some (ex_leaf 101 5))))
       (Some (ex_config 200 3 7 (Some (ex_leaf 201 6)))) = false
  /\ @gimp_config_is_equal_to example_config
       (Some (ex_config 100 3 7 (Some (ex_leaf 101 5))))
       (Some (ex_config 200 3 7 None)) = false
  /\ @gimp_config_is_equal_to example_config
       (Some (ex_config 100 3 7 None)) (Some not_a_config) = false.
Proof. repeat split. Qed.

(* ================================================================== *)
(** * Part III: further properties of the code                         *)
(* ================================================================== *)

(** ** What the matcher returns and what it writes *)

Section MatcherShape.
Context `{GLibText}.

Lemma initials_block_shape (keys lt la : list string) :
  exists b : bool,
    forall section,
      initials_block keys lt la (false, section)
      = (b, if b then set_section section 1 else section).
Proof.
  destruct (initials_block_cases keys lt la None) as [[Hi _] | [Hno _]].
  - exists true. intros section.
    destruct (initials_block_cases keys lt la section) as [[_ ->] | [Hno _]];
      [reflexivity | tauto].
  - exists false. intros section.
    destruct (initials_block_cases keys lt la section) as [[Hi _] | [_ ->]];
      [tauto | reflexivity].
Qed.

Lemma prefix_block_shape (keys lt la : list string) :
  exists (b : bool) (v : gint),
    1 <= v <= 3
    /\ forall section,
         prefix_block keys lt la (false, section)
         = (b, if b then set_section section v else section).
Proof.
  unfold prefix_block. cbn [negb andb].
  destruct (g_strv_length lt >? 0).
  - set (st' := prefix_loop lt la keys 0 _).
    exists (ps_matched st'),
      (if ps_match_ordered st'
       then (if ps_match_start st' then 1 else 2) else 3).
    split.
    + destruct (ps_match_ordered st'), (ps_match_start st'); lia.
    + intros section. destruct (ps_matched st'); reflexivity.
  - exists false, 1. split; [lia | reflexivity].
Qed.

Lemma tooltip_block_shape (action : GtkAction) (gimp : Gimp)
    (keys lt la : list string) :
  exists (b : bool) (v : gint),
    4 <= v <= 5
    /\ forall section,
         tooltip_block action gimp keys lt la (false, section)
         = (b, if b then set_section section v else section).
Proof.
  unfold tooltip_block. cbn [negb andb].
  destruct (gtk_action_get_tooltip action) as [tooltip|];
    [|exists false, 4; split; [lia | reflexivity]].
  destruct (g_utf8_strlen_first keys >? 2);
    [|exists false, 4; split; [lia | reflexivity]].
  destruct (g_str_tokenize_and_fold tooltip (config_language gimp))
    as [tt ta].
  destruct (g_strv_length tt >? 0);
    [|exists false, 4; split; [lia | reflexivity]].
  destruct (tooltip_loop tt ta lt la keys (true, false)) as [m' mixed].
  exists m', (if mixed then 5 else 4). split.
  - destruct mixed; lia.
  - intros section. destruct m'; reflexivity.
Qed.

(** The two label blocks together. *)
Lemma label_blocks_shape (keys lt la : list string) :
  exists (b : bool) (v : gint),
    1 <= v <= 3
    /\ forall section,
         prefix_block keys lt la (initials_block keys lt la (false, section))
         = (b, if b then set_section section v else section).
Proof.
  destruct (initials_block_shape keys lt la) as [[|] Hi].
  - exists true, 1. split; [lia|]. intros section. rewrite Hi.
    apply prefix_block_done.
  - destruct (prefix_block_shape keys lt la) as (b & v & Hv & Hp).
    exists b, v. split; [exact Hv|]. intros section. rewrite Hi. apply Hp.
Qed.

Lemma match_keyword_shape (action : GtkAction) (keyword : option string)
    (gimp : Gimp) :
  exists (b : bool) (v : gint),
    0 <= v <= 5 /\ (keyword <> None -> 1 <= v)
    /\ forall section,
         action_search_match_keyword action keyword section gimp
         = (b, if b then set_section section v else section).
Proof.
  unfold action_search_match_keyword. destruct keyword as [kw|].
  - destruct (g_str_tokenize_and_fold
                (gimp_strip_uline (gtk_action_get_label action))
                (config_language gimp)) as [lt la].
    set (keys := fst (g_str_tokenize_and_fold kw (config_language gimp))).
    destruct (label_blocks_shape keys lt la) as ([|] & v & Hv & Hl).
    + exists true, v. split; [lia|]. split; [lia|]. intros section.
      rewrite Hl. apply tooltip_block_done.
    + destruct (tooltip_block_shape action gimp keys lt la)
        as (b & v' & Hv' & Ht).
      exists b, v'. split; [lia|]. split; [lia|]. intros section.
      rewrite Hl. apply Ht.
  - exists true, 0. split; [lia|]. split; [congruence | reflexivity].
Qed.

(** X1: the matcher returns the same boolean whether or not a section
    location is supplied and whatever the location holds; on FALSE it
    leaves [*section] as it was, on TRUE it has written a rank from 0 to
    5 there, and rank 0 only for the NULL keyword. *)
Theorem match_keyword_section_discipline (action : GtkAction)
    (keyword : option string) (gimp : Gimp) (s0 : gint) :
  action_search_match_keyword action keyword None gimp
  = (fst (action_search_match_keyword action keyword (Some s0) gimp), None)
  /\ (forall s1,
         fst (action_search_match_keyword action keyword (Some s1) gimp)
         = fst (action_search_match_keyword action keyword (Some s0) gimp))
  /\ (fst (action_search_match_keyword action keyword (Some s0) gimp) = false
      -> snd (action_search_match_keyword action keyword (Some s0) gimp)
         = Some s0)
  /\ (fst (action_search_match_keyword action keyword (Some s0) gimp) = true
      -> exists v,
           (forall s1,
               snd (action_search_match_keyword action keyword (Some s1) gimp)
               = Some v)
           /\ 0 <= v <= 5
           /\ (v = 0 <-> keyword = None)).
Proof.
  destruct (match_keyword_shape action keyword gimp)
    as (b & v & Hv & Hpos & Hshape).
  rewrite !Hshape. cbn [fst snd].
  split; [destruct b; reflexivity|].
  split; [intros s1; rewrite Hshape; reflexivity|].
  split; [intros ->; reflexivity|].
  intros ->. exists v. split; [intros s1; rewrite Hshape; reflexivity|].
  split; [exact Hv|]. split.
  - intros ->. destruct keyword; [|reflexivity].
    assert (1 <= 0) by (apply Hpos; discriminate). lia.
  - intros ->.
    specialize (Hshape (Some 0)). cbn in Hshape. injection Hshape as <-.
    reflexivity.
Qed.
End MatcherShape.

Section MatcherMeaning.
Context `{GLibText}.

Lemma label_blocks_dec (keys lt la : list string) :
  label_heuristics_match keys lt la \/ ~ label_heuristics_match keys lt la.
Proof.
  destruct (fst (prefix_block keys lt la
                   (initials_block keys lt la (false, None)))) eqn:E.
  - left. apply (label_blocks_matched keys lt la None). exact E.
  - right. intros Hm. apply (label_blocks_matched keys lt la None) in Hm.
    congruence.
Qed.

(** X2: for a non-NULL keyword the matcher returns TRUE exactly when one
    of the label heuristics matches, or the action has a tooltip and the
    tooltip fallback matches. *)
Theorem match_keyword_iff (action : GtkAction) (kw : string)
    (section : option gint) (gimp : Gimp) (keys kalts lt la : list string) :
  g_str_tokenize_and_fold kw (config_language gimp) = (keys, kalts) ->
  g_str_tokenize_and_fold (gimp_strip_uline (gtk_action_get_label action))
    (config_language gimp) = (lt, la) ->
  fst (action_search_match_keyword action (Some kw) section gimp) = true
  <-> label_heuristics_match keys lt la
      \/ exists tooltip tt ta,
           gtk_action_get_tooltip action = Some tooltip
           /\ g_str_tokenize_and_fold tooltip (config_language gimp)
              = (tt, ta)
           /\ tooltip_fallback_matches keys tt ta lt la.
Proof.
  intros Hk Hl.
  rewrite (match_keyword_unfold action kw section gimp keys kalts lt la Hk Hl).
  destruct (label_blocks_dec keys lt la) as [Hm | Hno].
  - pose proof (proj2 (label_blocks_matched keys lt la section) Hm) as Hb.
    destruct (prefix_block keys lt la
                (initials_block keys lt la (false, section))) as [m s].
    simpl in Hb. subst m. rewrite tooltip_block_done. simpl. tauto.
  - rewrite (label_blocks_unmatched keys lt la section Hno).
    destruct (gtk_action_get_tooltip action) as [tooltip|] eqn:Et.
    + destruct (g_str_tokenize_and_fold tooltip (config_language gimp))
        as [tt ta] eqn:Ett.
      pose proof (tooltip_block_spec action gimp keys lt la section
                    tooltip tt ta Et Ett) as (Hm & _).
      cbv zeta in Hm. rewrite Hm. split.
      * intros Hf. right. exists tooltip, tt, ta. auto.
      * intros [? | (tooltip' & tt' & ta' & Heq & Htok & Hf)]; [tauto|].
        injection Heq as <-. rewrite Ett in Htok. injection Htok as <- <-.
        exact Hf.
    + rewrite tooltip_block_no_tooltip by exact Et. simpl. split.
      * discriminate.
      * intros [? | (tooltip' & _ & _ & Heq & _)]; [tauto | discriminate].
Qed.

(** X3: for a non-NULL keyword the section written on a match tells
    which heuristic matched: 1 to 3 exactly when a label heuristic
    matched (1 when the two-letter initials did), 4 or 5 exactly when
    only the tooltip fallback did. *)
Theorem section_identifies_heuristic (action : GtkAction) (kw : string)
    (gimp : Gimp) (keys kalts lt la : list string) (s0 v : gint) :
  g_str_tokenize_and_fold kw (config_language gimp) = (keys, kalts) ->
  g_str_tokenize_and_fold (gimp_strip_uline (gtk_action_get_label action))
    (config_language gimp) = (lt, la) ->
  action_search_match_keyword action (Some kw) (Some s0) gimp
  = (true, Some v) ->
  (label_heuristics_match keys lt la <-> 1 <= v <= 3)
  /\ (~ label_heuristics_match keys lt la <-> 4 <= v <= 5)
  /\ (two_letter_initials keys lt la -> v = 1).
Proof.
  intros Hk Hl.
  rewrite (match_keyword_unfold action kw (Some s0) gimp keys kalts lt la
             Hk Hl).
  destruct (label_blocks_dec keys lt la) as [Hm | Hno].
  - pose proof (proj2 (label_blocks_matched keys lt la (Some s0)) Hm) as Hb.
    destruct (label_blocks_shape keys lt la) as (b & v' & Hv' & Hs).
    rewrite Hs in *. simpl in Hb. subst b. rewrite tooltip_block_done.
    cbn [set_section]. intros Heq. injection Heq as <-.
    split; [tauto|]. split; [split; [tauto | lia]|].
    intros Hi.
    destruct (initials_block_cases keys lt la (Some s0)) as [[_ Hb] | [? _]];
      [|tauto].
    specialize (Hs (Some s0)). rewrite Hb, prefix_block_done in Hs.
    cbn in Hs. congruence.
  - rewrite (label_blocks_unmatched keys lt la (Some s0) Hno).
    destruct (tooltip_block_shape action gimp keys lt la)
      as (b & v' & Hv' & Hs).
    rewrite Hs. intros Heq. injection Heq as -> Hv. cbn in Hv.
    injection Hv as <-.
    split; [split; [tauto | lia]|]. split; [tauto|].
    intros Hi. destruct Hno. left. exact Hi.
Qed.
End MatcherMeaning.

Lemma match_keyword_iff_witness :
  fst (@action_search_match_keyword ascii_text gamma_red_green
         (Some "nice gamma") None gimp_en) = true.
Proof.
  apply (@match_keyword_iff ascii_text gamma_red_green "nice gamma" None
           gimp_en ["nice"; "gamma"] [] ["gamma"; "red"; "green"] []
           eq_refl eq_refl).
  right. exists "Apply a nice filter", ["apply"; "a"; "nice"; "filter"], [].
  split; [reflexivity|]. split; [reflexivity|].
  split; [reflexivity|]. split; [discriminate|].
  constructor; [|constructor; [|constructor]].
  - exists "nice". split; [simpl; auto | reflexivity].
  - exists "gamma". split; [simpl; auto 10 | reflexivity].
Defined.

Lemma section_identifies_heuristic_witness :
  ~ @label_heuristics_match ascii_text ["nice"; "gamma"]
      ["gamma"; "red"; "green"] [].
Proof.
  apply (@section_identifies_heuristic ascii_text gamma_red_green
           "nice gamma" gimp_en ["nice"; "gamma"] []
           ["gamma"; "red"; "green"] [] 7 5 eq_refl eq_refl eq_refl).
  lia.
Defined.

(** ** Successive insertions rank the rows stably *)

Lemma filter_none_above (s : gint) (rows : list Row) :
  Forall (fun r => COLUMN_SECTION r > s) rows ->
  filter (in_section s) rows = [].
Proof.
  induction 1 as [|r rows Hr _ IH]; [reflexivity|]. simpl.
  unfold in_section at 1.
  destruct (Z.eqb_spec (COLUMN_SECTION r) s); [lia | exact IH].
Qed.

Lemma results_insert_filter (row : Row) (store : list Row) (s : gint) :
  ranked store ->
  filter (in_section s) (results_insert row store)
  = filter (in_section s) store ++ filter (in_section s) [row].
Proof.
  intros Hr.
  destruct (results_insert_split row store)
    as (above & below & Hsplit & -> & _ & Hhd).
  subst store.
  pose proof (ranked_below above below (COLUMN_SECTION row) Hr Hhd) as Hb.
  rewrite !filter_app. simpl.
  destruct (in_section s row) eqn:Es.
  - unfold in_section in Es. apply Z.eqb_eq in Es. subst s.
    rewrite (filter_none_above _ below Hb). rewrite app_nil_r. reflexivity.
  - rewrite app_nil_r. reflexivity.
Qed.

Lemma results_insert_length (row : Row) (store : list Row) :
  List.length (results_insert row store) = S (List.length store).
Proof.
  destruct (results_insert_split row store)
    as (above & below & -> & -> & _).
  rewrite !length_app. simpl. lia.
Qed.

Lemma insert_all_stable (rows store : list Row) :
  ranked store ->
  ranked (insert_all rows store)
  /\ forall s,
       filter (in_section s) (insert_all rows store)
       = filter (in_section s) store ++ filter (in_section s) rows.
Proof.
  unfold insert_all. revert store.
  induction rows as [|r rows IH]; intros store Hr; cbn [fold_left].
  - split; [exact Hr|]. intros s. rewrite app_nil_r. reflexivity.
  - destruct (IH (results_insert r store) (results_insert_ranked r store Hr))
      as (IHr & IHf).
    split; [exact IHr|].
    intros s. rewrite IHf. rewrite (results_insert_filter r store s Hr).
    change (r :: rows) with ([r] ++ rows). rewrite filter_app.
    rewrite <- app_assoc. reflexivity.
Qed.

(** X4: rows inserted one after the other into a ranked store leave it
    ranked, and within every section the rows stay in the order of
    their insertion, after those that were there: the insertions sort
    the rows by section, stably; no row is lost or repeated. *)
Theorem insertions_rank_stably (rows store : list Row) :
  ranked store ->
  ranked (insert_all rows store)
  /\ (forall s,
         filter (in_section s) (insert_all rows store)
         = filter (in_section s) store ++ filter (in_section s) rows)
  /\ List.length (insert_all rows store)
     = (List.length store + List.length rows)%nat.
Proof.
  intros Hr. destruct (insert_all_stable rows store Hr) as [Hranked Hfilter].
  split; [exact Hranked|]. split; [exact Hfilter|].
  clear. unfold insert_all. revert store.
  induction rows as [|r rows IH]; intros store; cbn [fold_left].
  - simpl. lia.
  - rewrite IH, results_insert_length. simpl. lia.
Qed.

Lemma insertions_rank_stably_witness :
  ranked
    (insert_all
       [row_of gamma_red_green 2; row_of gaussian_blur 1;
        row_of flou_ete 2]
       [row_of gaussian_blur 0; row_of flou_ete 3]).
Proof.
  apply (insertions_rank_stably
           [row_of gamma_red_green 2; row_of gaussian_blur 1;
            row_of flou_ete 2]
           [row_of gaussian_blur 0; row_of flou_ete 3]).
  repeat constructor. unfold section_le. simpl. lia.
Defined.

(** ** The driver adds its candidates by successive insertions *)

Section Driver.
Context `{GLibText} `{ActionEnv}.

Lemma insert_all_app (l1 l2 store : list Row) :
  insert_all (l1 ++ l2) store = insert_all l2 (insert_all l1 store).
Proof. unfold insert_all. apply fold_left_app. Qed.

Lemma search_one_action_inserts (keyword : option string)
    (history : list GtkAction) (uninit : gint) (p : SearchDialog)
    (action : GtkAction) :
  search_one_action keyword history uninit p action
  = {| private_gimp := private_gimp p;
       results_list :=
         insert_all
           (candidate_of keyword history uninit (private_gimp p) action)
           (results_list p) |}.
Proof.
  unfold search_one_action, candidate_of.
  destruct (gimp_action_history_excluded_action _ && _ && _);
    [destruct p; reflexivity|].
  destruct (negb _ && negb _); [destruct p; reflexivity|].
  destruct (action_search_match_keyword action keyword (Some uninit)
              (private_gimp p)) as [[|] sec]; [|destruct p; reflexivity].
  destruct (is_redundant history (gtk_action_get_name action));
    [destruct p; reflexivity|].
  rewrite add_to_results_list_spec.
  destruct (has_label action); [reflexivity | destruct p; reflexivity].
Qed.

Lemma search_group_inserts (keyword : option string)
    (history : list GtkAction) (uninit : gint) (group : list GtkAction)
    (p : SearchDialog) :
  fold_left (search_one_action keyword history uninit) group p
  = {| private_gimp := private_gimp p;
       results_list :=
         insert_all
           (flat_map (candidate_of keyword history uninit (private_gimp p))
              group)
           (results_list p) |}.
Proof.
  revert p. induction group as [|a group IH]; intros p.
  - destruct p; reflexivity.
  - cbn [fold_left flat_map]. rewrite IH, search_one_action_inserts.
    cbn [private_gimp results_list]. rewrite insert_all_app. reflexivity.
Qed.

Lemma search_groups_insert (keyword : option string)
    (history : list GtkAction) (uninit : gint)
    (groups : list (list GtkAction)) (p : SearchDialog) :
  fold_left
    (fun q group =>
       fold_left (search_one_action keyword history uninit) group q)
    groups p
  = {| private_gimp := private_gimp p;
       results_list :=
         insert_all
           (flat_map
              (flat_map
                 (candidate_of keyword history uninit (private_gimp p)))
              groups)
           (results_list p) |}.
Proof.
  revert p. induction groups as [|g groups IH]; intros p.
  - destruct p; reflexivity.
  - cbn [fold_left flat_map]. rewrite IH, search_group_inserts.
    cbn [private_gimp results_list]. rewrite insert_all_app. reflexivity.
Qed.

Lemma add_history_inserts (history : list GtkAction) (p : SearchDialog) :
  fold_left (fun q a => action_search_add_to_results_list a q 0) history p
  = {| private_gimp := private_gimp p;
       results_list :=
         insert_all (map (fun a => row_of a 0) (filter has_label history))
           (results_list p) |}.
Proof.
  revert p. induction history as [|a history IH]; intros p.
  - destruct p; reflexivity.
  - cbn [fold_left filter]. rewrite IH, add_to_results_list_spec.
    destruct (has_label a); reflexivity.
Qed.

(** The driver as one sequence of insertions. *)
Lemma history_and_actions_inserts (keyword : option string)
    (p : SearchDialog) (uninit : gint) :
  keyword <> Some EmptyString ->
  action_search_history_and_actions keyword p uninit
  = {| private_gimp := private_gimp p;
       results_list :=
         insert_all (candidate_rows keyword (private_gimp p) uninit)
           (results_list p) |}.
Proof.
  intros Hkw.
  assert (Hrun :
    fold_left
      (fun q group =>
         fold_left
           (search_one_action keyword
              (gimp_action_history_search (private_gimp p)
                 action_search_match_keyword keyword) uninit)
           group q)
      image_manager_action_groups
      (fold_left (fun q a => action_search_add_to_results_list a q 0)
         (gimp_action_history_search (private_gimp p)
            action_search_match_keyword keyword) p)
    = {| private_gimp := private_gimp p;
         results_list :=
           insert_all (candidate_rows keyword (private_gimp p) uninit)
             (results_list p) |}).
  { rewrite search_groups_insert, add_history_inserts.
    cbn [private_gimp results_list]. unfold candidate_rows, history_rows.
    rewrite insert_all_app. reflexivity. }
  unfold action_search_history_and_actions.
  destruct keyword as [[|c kw]|]; [congruence | exact Hrun | exact Hrun].
Qed.

(** X5: a search adds the rows of its candidates, the history actions
    first and then the listed actions group by group, by successive
    insertions: a ranked store stays ranked, and within every section
    the candidates follow the rows already there, in the order the
    search visited them.  The empty keyword adds nothing. *)
Theorem search_ranks_candidates (keyword : option string)
    (p : SearchDialog) (uninit : gint) :
  ranked (results_list p) ->
  (keyword = Some EmptyString ->
   action_search_history_and_actions keyword p uninit = p)
  /\ (keyword <> Some EmptyString ->
      ranked (results_list
                (action_search_history_and_actions keyword p uninit))
      /\ forall s,
           filter (in_section s)
             (results_list
                (action_search_history_and_actions keyword p uninit))
           = filter (in_section s) (results_list p)
             ++ filter (in_section s)
                  (candidate_rows keyword (private_gimp p) uninit)).
Proof.
  intros Hr. split.
  - intros ->. reflexivity.
  - intros Hkw. rewrite (history_and_actions_inserts keyword p uninit Hkw).
    cbn [results_list].
    destruct (insert_all_stable
                (candidate_rows keyword (private_gimp p) uninit)
                (results_list p) Hr) as (Hranked & Hfilter).
    auto.
Qed.
End Driver.

Lemma search_ranks_candidates_witness :
  map (fun r => gtk_action_get_name (COLUMN_ACTION r))
    (filter (in_section 2)
       (results_list
          (@action_search_history_and_actions ascii_text example_env
             (Some "blur")
             {| private_gimp := gimp_en;
                results_list := [row_of flou_ete 2; row_of flou_ete 5] |}
             99)))
  = ["filters-flou-ete"; "filters-gaussian-blur"; "colors-blur-hue"].
Proof.
  assert (Hr : ranked [row_of flou_ete 2; row_of flou_ete 5]).
  { repeat constructor. unfold section_le. simpl. lia. }
  assert (Hk : Some "blur" <> Some EmptyString) by discriminate.
  rewrite (proj2 (proj2 (@search_ranks_candidates ascii_text example_env
                           (Some "blur")
                           {| private_gimp := gimp_en;
                              results_list :=
                                [row_of flou_ete 2; row_of flou_ete 5] |}
                           99 Hr)
                    Hk)).
  reflexivity.
Defined.

(** ** Which actions a search lists *)

Section Listed.
Context `{GLibText} `{ActionEnv}.

Lemma in_filtered_section (r : Row) (l : list Row) :
  In r l <-> In r (filter (in_section (COLUMN_SECTION r)) l).
Proof.
  rewrite filter_In. unfold in_section. rewrite Z.eqb_refl. tauto.
Qed.

Lemma is_redundant_false (history : list GtkAction) (name : string) :
  is_redundant history name = false
  <-> forall h, In h history -> gtk_action_get_name h <> name.
Proof.
  unfold is_redundant. induction history as [|a history IH]; simpl.
  - split; [intros _ h [] | reflexivity].
  - rewrite orb_false_iff, IH. split.
    + intros [Ha Hrest] h [<- | Hin]; [|auto].
      apply String.eqb_neq. exact Ha.
    + intros Hall. split; [|intros h Hin; apply Hall; auto].
      apply String.eqb_neq. apply Hall. auto.
Qed.

Lemma not_excluded_spec (name : string) :
  gimp_action_history_excluded_action name
  && negb (String.eqb name "plug-in-repeat")
  && negb (String.eqb name "plug-in-reshow") = false
  <-> gimp_action_history_excluded_action name = false
      \/ name = "plug-in-repeat" \/ name = "plug-in-reshow".
Proof.
  rewrite !andb_false_iff, !negb_false_iff, !String.eqb_eq. tauto.
Qed.

Lemma available_spec (gimp : Gimp) (action : GtkAction) :
  negb (gtk_action_is_sensitive action)
  && negb (config_search_show_unavailable gimp) = false
  <-> gtk_action_is_sensitive action = true
      \/ config_search_show_unavailable gimp = true.
Proof.
  rewrite andb_false_iff, !negb_false_iff. tauto.
Qed.

Lemma candidate_of_spec (keyword : option string) (gimp : Gimp)
    (uninit : gint) (action : GtkAction) (r : Row) :
  In r (candidate_of keyword
          (gimp_action_history_search gimp action_search_match_keyword
             keyword)
          uninit gimp action)
  <-> exists s, listed keyword gimp action s /\ r = row_of action s.
Proof.
  unfold candidate_of, listed.
  pose proof (not_excluded_spec (gtk_action_get_name action)) as Hex.
  pose proof (available_spec gimp action) as Hav.
  pose proof (is_redundant_false
                (gimp_action_history_search gimp action_search_match_keyword
                   keyword)
                (gtk_action_get_name action)) as Hred.
  destruct (match_keyword_shape action keyword gimp)
    as (b & v & _ & _ & Hshape).
  rewrite (Hshape (Some uninit)). cbn [set_section].
  destruct (gimp_action_history_excluded_action _ && _ && _).
  { split; [intros [] | intros (s & (Hc & _) & _)].
    apply Hex in Hc. discriminate. }
  destruct (negb _ && negb _).
  { split; [intros [] | intros (s & (_ & Hc & _) & _)].
    apply Hav in Hc. discriminate. }
  destruct b.
  - destruct (is_redundant _ _).
    { split; [intros [] | intros (s & (_ & _ & _ & Hc & _) & _)].
      apply Hred in Hc. discriminate. }
    destruct (has_label action).
    + split.
      * intros [<- | []]. exists v. split; [|reflexivity].
        repeat split; try tauto.
        intros u. rewrite Hshape. reflexivity.
      * intros (s & (_ & _ & Hm & _) & ->). left.
        specialize (Hm uninit). rewrite Hshape in Hm. cbn in Hm.
        injection Hm as <-. reflexivity.
    + split; [intros [] | intros (s & (_ & _ & _ & _ & Hc) & _)].
      discriminate.
  - split; [intros [] | intros (s & (_ & _ & Hm & _) & _)].
    specialize (Hm uninit). rewrite Hshape in Hm. discriminate.
Qed.

(** X6: after a search on the cleared store a row is in the list
    exactly when it is the row of a history action, or the row of an
    action of some group that is listed: not excluded from the search
    (or one of the two plug-in actions), available unless unavailable
    actions are shown, matching the keyword with the section of the row,
    absent from the history by name, and with a label. *)
Theorem search_lists_exactly (keyword : option string) (gimp : Gimp)
    (uninit : gint) (r : Row) :
  keyword <> Some EmptyString ->
  In r (results_list
          (action_search_history_and_actions keyword (cleared gimp) uninit))
  <-> In r (history_rows keyword gimp)
      \/ exists group action s,
           In group image_manager_action_groups
           /\ In action group
           /\ listed keyword gimp action s
           /\ r = row_of action s.
Proof.
  intros Hkw.
  rewrite (history_and_actions_inserts keyword (cleared gimp) uninit Hkw).
  cbn [results_list private_gimp cleared].
  assert (Hsorted : ranked []) by constructor.
  destruct (insert_all_stable (candidate_rows keyword gimp uninit) []
              Hsorted) as (_ & Hfilter).
  rewrite in_filtered_section, Hfilter. cbn [filter app].
  rewrite <- in_filtered_section.
  unfold candidate_rows. rewrite in_app_iff, in_flat_map.
  split.
  - intros [Hh | (group & Hg & Hin)]; [left; exact Hh|].
    apply in_flat_map in Hin. destruct Hin as (action & Ha & Hr).
    apply candidate_of_spec in Hr. destruct Hr as (s & Hl & ->).
    right. exists group, action, s. auto.
  - intros [Hh | (group & action & s & Hg & Ha & Hl & ->)];
      [left; exact Hh|].
    right. exists group. split; [exact Hg|].
    apply in_flat_map. exists action. split; [exact Ha|].
    apply candidate_of_spec. exists s. auto.
Qed.

Lemma history_rows_section (keyword : option string) (gimp : Gimp) :
  Forall (fun r => COLUMN_SECTION r = 0) (history_rows keyword gimp).
Proof.
  unfold history_rows. apply Forall_forall. intros r Hin.
  apply in_map_iff in Hin. destruct Hin as (a & <- & _). reflexivity.
Qed.

Lemma filter_all (s : gint) (rows : list Row) :
  Forall (fun r => COLUMN_SECTION r = s) rows ->
  filter (in_section s) rows = rows.
Proof.
  induction 1 as [|r rows Hr _ IH]; [reflexivity|]. simpl.
  unfold in_section at 1. rewrite Hr, Z.eqb_refl, IH. reflexivity.
Qed.

Lemma candidate_of_section (keyword : option string)
    (history : list GtkAction) (uninit : gint) (gimp : Gimp)
    (action : GtkAction) :
  Forall (fun r => (keyword = None -> COLUMN_SECTION r = 0)
                   /\ (keyword <> None -> COLUMN_SECTION r > 0))
    (candidate_of keyword history uninit gimp action).
Proof.
  unfold candidate_of.
  destruct (match_keyword_shape action keyword gimp)
    as (b & v & Hv & Hpos & Hshape).
  rewrite (Hshape (Some uninit)). cbn [set_section].
  destruct (gimp_action_history_excluded_action _ && _ && _); [constructor|].
  destruct (negb _ && negb _); [constructor|].
  destruct b; [|constructor].
  destruct (is_redundant _ _); [constructor|].
  destruct (has_label action); [|constructor].
  constructor; [|constructor]. simpl. split.
  - intros ->. specialize (Hshape (Some 0)). cbn in Hshape.
    injection Hshape as <-. reflexivity.
  - intros Hk. specialize (Hpos Hk). lia.
Qed.

Lemma group_candidates_section (keyword : option string)
    (history : list GtkAction) (uninit : gint) (gimp : Gimp)
    (groups : list (list GtkAction)) :
  Forall (fun r => (keyword = None -> COLUMN_SECTION r = 0)
                   /\ (keyword <> None -> COLUMN_SECTION r > 0))
    (flat_map (flat_map (candidate_of keyword history uninit gimp)) groups).
Proof.
  apply Forall_forall. intros r Hin.
  apply in_flat_map in Hin. destruct Hin as (group & _ & Hin).
  apply in_flat_map in Hin. destruct Hin as (action & _ & Hin).
  pose proof (candidate_of_section keyword history uninit gimp action) as Hall.
  rewrite Forall_forall in Hall. apply Hall. exact Hin.
Qed.

(** X7: in the list of a search on the cleared store for a keyword that
    is neither NULL nor empty, the rows of section 0 are exactly the
    rows of the history actions, in the order of the history, and they
    are the first rows, every later row having a positive section; for
    the NULL keyword the list is the candidates in the order the search
    visited them. *)
Theorem history_is_section_zero (keyword : option string) (gimp : Gimp)
    (uninit : gint) :
  keyword <> Some EmptyString ->
  let store :=
    results_list
      (action_search_history_and_actions keyword (cleared gimp) uninit) in
  (keyword <> None ->
   filter (in_section 0) store = history_rows keyword gimp
   /\ exists rest,
        store = history_rows keyword gimp ++ rest
        /\ Forall (fun r => COLUMN_SECTION r > 0) rest)
  /\ (keyword = None -> store = candidate_rows None gimp uninit).
Proof.
  intros Hkw store. subst store.
  rewrite (history_and_actions_inserts keyword (cleared gimp) uninit Hkw).
  cbn [results_list private_gimp cleared].
  assert (Hsorted : ranked []) by constructor.
  destruct (insert_all_stable (candidate_rows keyword gimp uninit) []
              Hsorted) as (Hranked & Hfilter).
  pose proof (group_candidates_section keyword
                (gimp_action_history_search gimp action_search_match_keyword
                   keyword)
                uninit gimp image_manager_action_groups) as Hgroups.
  pose proof (history_rows_section keyword gimp) as Hhist.
  split.
  - intros Hsome.
    assert (Hzero : filter (in_section 0)
                      (insert_all (candidate_rows keyword gimp uninit) [])
                    = history_rows keyword gimp).
    { rewrite Hfilter. cbn [filter app]. unfold candidate_rows.
      rewrite filter_app, (filter_all 0 _ Hhist).
      rewrite filter_none_above; [apply app_nil_r|].
      eapply Forall_impl; [|exact Hgroups]. intros r [_ Hr]. auto. }
    split; [exact Hzero|].
    set (store := insert_all (candidate_rows keyword gimp uninit) []) in *.
    assert (Hnonneg : Forall (fun r => 0 <= COLUMN_SECTION r) store).
    { apply Forall_forall. intros r Hin.
      apply in_filtered_section in Hin. rewrite Hfilter in Hin.
      cbn [filter app] in Hin. apply filter_In in Hin. destruct Hin as [Hin _].
      unfold candidate_rows in Hin. apply in_app_or in Hin.
      rewrite Forall_forall in Hhist, Hgroups.
      destruct Hin as [Hin | Hin];
        [rewrite (Hhist r Hin); lia | destruct (Hgroups r Hin) as [_ Hr]].
      specialize (Hr Hsome). lia. }
    rewrite <- Hzero. clear - Hranked Hnonneg.
    induction store as [|r store IH].
    + exists []. split; [reflexivity | constructor].
    + inversion Hnonneg as [|? ? Hr Hrest]; subst.
      assert (Htail : ranked store) by (inversion Hranked; assumption).
      cbn [filter]. unfold in_section at 1.
      destruct (Z.eqb_spec (COLUMN_SECTION r) 0) as [Hz | Hnz].
      * destruct (IH Htail Hrest) as (rest & Heq & Hall).
        exists rest. split; [|exact Hall]. cbn [app]. f_equal. exact Heq.
      * assert (Hall : Forall (fun x => COLUMN_SECTION x > 0) (r :: store)).
        { assert (Htrans : Relations_1.Transitive section_le).
          { intros x y z. unfold section_le. lia. }
          apply Sorted_StronglySorted in Hranked; [|exact Htrans].
          inversion Hranked as [|? ? _ Hle]; subst.
          constructor; [lia|]. rewrite Forall_forall in *.
          intros x Hx. specialize (Hle x Hx). unfold section_le in Hle. lia. }
        rewrite (filter_none_above 0 store)
          by (inversion Hall; assumption).
        exists (r :: store). split; [reflexivity | exact Hall].
  - intros ->.
    set (store := insert_all (candidate_rows None gimp uninit) []) in *.
    assert (Hall : Forall (fun r => COLUMN_SECTION r = 0)
                     (candidate_rows None gimp uninit)).
    { unfold candidate_rows. apply Forall_app. split; [exact Hhist|].
      eapply Forall_impl; [|exact Hgroups]. intros r [Hr _]. auto. }
    assert (Hstore : Forall (fun r => COLUMN_SECTION r = 0) store).
    { apply Forall_forall. intros r Hin.
      apply in_filtered_section in Hin. rewrite Hfilter in Hin.
      cbn [filter app] in Hin. apply filter_In in Hin. destruct Hin as [Hin _].
      rewrite Forall_forall in Hall. auto. }
    rewrite <- (filter_all 0 store Hstore), Hfilter. cbn [filter app].
    apply filter_all. exact Hall.
Qed.
End Listed.

Lemma search_lists_exactly_witness :
  In (row_of (mk_action "colors-blur-hue" "Hue of the Blur" None) 2)
    (results_list
       (@action_search_history_and_actions ascii_text example_env
          (Some "blur") (cleared gimp_en) 99)).
Proof.
  apply (@search_lists_exactly ascii_text example_env (Some "blur") gimp_en
           99); [discriminate|].
  right.
  exists color_actions, (mk_action "colors-blur-hue" "Hue of the Blur" None),
    2.
  split; [simpl; auto|]. split; [simpl; auto|]. split; [|reflexivity].
  split; [left; reflexivity|]. split; [left; reflexivity|].
  split; [intros u; reflexivity|]. split; [|reflexivity].
  intros h [<- | []]. discriminate.
Defined.

Lemma history_is_section_zero_witness :
  filter (in_section 0)
    (results_list
       (@action_search_history_and_actions ascii_text example_env
          (Some "blur") (cleared gimp_en) 99))
  = @history_rows ascii_text example_env (Some "blur") gimp_en.
Proof.
  assert (Hk : Some "blur" <> Some EmptyString) by discriminate.
  assert (Hs : Some "blur" <> @None string) by discriminate.
  exact (proj1 (proj1 (@history_is_section_zero ascii_text example_env
                         (Some "blur") gimp_en 99 Hk) Hs)).
Defined.

(** ** The key handler of the entry *)

Section KeyReleased.
Context `{GLibText} `{ActionEnv}.

(** X8: a key release other than Escape and Return, with text in the
    entry (or the Down key on an empty entry, which searches with the
    NULL keyword), replaces the list by the ranked list of the
    candidates of the search: the new list does not depend on the rows
    shown before; the handler resizes the window to the stored height,
    shows the list and selects the first path. *)
Theorem key_release_searches_afresh (keyval : Z) (inputs : GtkInputs)
    (window_height uninit : gint) (private : SearchDialog) :
  keyval <> GDK_KEY_Escape ->
  keyval <> GDK_KEY_Return ->
  g_strstrip (entry_chars inputs) <> EmptyString \/ keyval = GDK_KEY_Down ->
  let keyword :=
    if String.eqb (g_strstrip (entry_chars inputs)) EmptyString
    then None else Some (g_strstrip (entry_chars inputs)) in
  let r :=
    action_search_entry_key_released keyval inputs window_height uninit
      private in
  results_list (fst r)
  = insert_all (candidate_rows keyword (private_gimp private) uninit) []
  /\ private_gimp (fst r) = private_gimp private
  /\ ranked (results_list (fst r))
  /\ snd r = [Call_window_resize (window_width inputs) window_height;
              Call_list_view_show_all;
              Call_select_path "0"].
Proof.
  intros Hesc Hret Hsearch keyword r.
  assert (Hkw : keyword <> Some EmptyString).
  { subst keyword.
    destruct (String.eqb_spec (g_strstrip (entry_chars inputs)) EmptyString);
      congruence. }
  assert (Hr : r = (action_search_history_and_actions keyword
                      (cleared (private_gimp private)) uninit,
                    [Call_window_resize (window_width inputs) window_height;
                     Call_list_view_show_all;
                     Call_select_path "0"])).
  { subst r keyword. unfold action_search_entry_key_released, cleared.
    destruct (Z.eqb_spec keyval GDK_KEY_Escape); [contradiction|].
    destruct (Z.eqb_spec keyval GDK_KEY_Return); [contradiction|].
    destruct (String.eqb_spec (g_strstrip (entry_chars inputs)) EmptyString)
      as [Hempty | Htext]; cbn [negb andb]; [|reflexivity].
    destruct Hsearch as [? | ->]; [contradiction|]. reflexivity. }
  rewrite Hr. cbn [fst snd].
  rewrite (history_and_actions_inserts keyword _ uninit Hkw).
  cbn [results_list private_gimp cleared].
  assert (Hsorted : ranked []) by constructor.
  destruct (insert_all_stable
              (candidate_rows keyword (private_gimp private) uninit) []
              Hsorted) as (Hranked & _).
  split; [reflexivity|]. split; [reflexivity|]. split; [exact Hranked|].
  reflexivity.
Qed.
End KeyReleased.

Section KeyActivation.
Context `{GLibText} `{ActionEnv}.

Lemma hide_never_activates (inputs : GtkInputs) (a : GtkAction) :
  ~ In (Call_action_activate a) (action_search_hide inputs).
Proof.
  unfold action_search_hide. destruct (dialog_is_widget inputs); simpl;
    intuition discriminate.
Qed.

Lemma run_selected_activates (inputs : GtkInputs) (private : SearchDialog)
    (a : GtkAction) :
  In (Call_action_activate a) (action_search_run_selected inputs private) ->
  gtk_action_is_sensitive a = true
  /\ exists n row,
       selected_path inputs = Some n
       /\ nth_error (results_list private) n = Some row
       /\ COLUMN_ACTION row = a
       /\ action_search_run_selected inputs private
          = Call_selection_set_mode_single
            :: action_search_hide inputs ++ [Call_action_activate a].
Proof.
  unfold action_search_run_selected, get_selected.
  destruct (selected_path inputs) as [n|];
    [|simpl; intuition discriminate].
  destruct (nth_error (results_list private) n) as [row|] eqn:En;
    [|simpl; intuition discriminate].
  destruct (gtk_action_is_sensitive (COLUMN_ACTION row)) eqn:Es;
    [|simpl; intuition discriminate].
  intros [Hc | Hin]; [discriminate|].
  apply in_app_or in Hin. destruct Hin as [Hin | [Heq | []]].
  - exfalso. exact (hide_never_activates inputs a Hin).
  - injection Heq as <-. split; [exact Es|]. exists n, row. auto.
Qed.

(** X9: the key handler of the entry activates an action only on
    Return, only the action of the selected row, only if it is
    sensitive, and only after the calls that hide the dialog; Escape,
    Return, and any key but Down on an empty entry leave the rows of the
    list as they are. *)
Theorem key_release_activates_only_available (keyval : Z)
    (inputs : GtkInputs) (window_height uninit : gint)
    (private : SearchDialog) :
  let r :=
    action_search_entry_key_released keyval inputs window_height uninit
      private in
  (forall a,
      In (Call_action_activate a) (snd r) ->
      keyval = GDK_KEY_Return
      /\ gtk_action_is_sensitive a = true
      /\ exists n row,
           selected_path inputs = Some n
           /\ nth_error (results_list private) n = Some row
           /\ COLUMN_ACTION row = a
           /\ snd r = Call_selection_set_mode_single
                      :: action_search_hide inputs ++ [Call_action_activate a])
  /\ (keyval = GDK_KEY_Escape \/ keyval = GDK_KEY_Return
      \/ (g_strstrip (entry_chars inputs) = EmptyString
          /\ keyval <> GDK_KEY_Down) ->
      fst r = private).
Proof.
  intros r. subst r. unfold action_search_entry_key_released.
  destruct (Z.eqb_spec keyval GDK_KEY_Escape) as [Hesc | Hesc].
  { cbn [fst snd]. split; [|reflexivity].
    intros a Hin. exfalso. exact (hide_never_activates inputs a Hin). }
  destruct (Z.eqb_spec keyval GDK_KEY_Return) as [Hret | Hret].
  { cbn [fst snd]. split; [|reflexivity].
    intros a Hin. split; [exact Hret|].
    apply run_selected_activates. exact Hin. }
  destruct (String.eqb_spec (g_strstrip (entry_chars inputs)) EmptyString)
    as [Hempty | Htext]; cbn [negb andb].
  - destruct (Z.eqb_spec keyval GDK_KEY_Down) as [Hdown | Hdown];
      cbn [fst snd].
    + split; [intros a Hin; simpl in Hin; intuition discriminate|].
      intros [? | [? | [_ ?]]]; contradiction.
    + split; [|reflexivity]. intros a [Hc | Hin]; [discriminate|].
      apply in_app_or in Hin. exfalso.
      destruct Hin as [Hin | Hin].
      * destruct (get_selected inputs private) as [[n row]|]; simpl in Hin;
          intuition discriminate.
      * simpl in Hin. intuition discriminate.
  - cbn [fst snd].
    split; [intros a Hin; simpl in Hin; intuition discriminate|].
    intros [? | [? | [? _]]]; contradiction.
Qed.
End KeyActivation.

Example key_release_examples :
  let inputs :=
    {| dialog_is_widget := true; window_width := 400;
       entry_chars := " blur "; selected_path := Some 1%nat |} in
  let shown :=
    fst (@action_search_entry_key_released ascii_text example_env
           120 inputs 300 99
           {| private_gimp := gimp_en;
              results_list := [row_of flou_ete 3] |}) in
  map (fun r => (gtk_action_get_name (COLUMN_ACTION r), COLUMN_SECTION r))
    (results_list shown)
  = [("filters-motion-blur", 0); ("filters-blur", 1);
     ("filters-gaussian-blur", 2); ("colors-blur-hue", 2);
     ("filters-pixelize", 4)]
  /\ snd (@action_search_entry_key_released ascii_text example_env
            GDK_KEY_Return inputs 300 99 shown)
     = [Call_selection_set_mode_single;
        Call_entry_set_text EmptyString;
        Call_list_view_hide;
        Call_window_resize 400 1;
        Call_dialog_factory_hide;
        Call_action_activate (mk_action "filters-blur" "_Blur"
                                (Some "Simple blur"))].
Proof. split; reflexivity. Qed.

Lemma key_release_searches_afresh_witness :
  results_list
    (fst (@action_search_entry_key_released ascii_text example_env
            120
            {| dialog_is_widget := true; window_width := 400;
               entry_chars := " blur "; selected_path := None |}
            300 99
            {| private_gimp := gimp_en;
               results_list := [row_of flou_ete 3] |}))
  = insert_all (@candidate_rows ascii_text example_env (Some "blur") gimp_en 99)
      [].
Proof.
  assert (H1 : 120 <> GDK_KEY_Escape) by discriminate.
  assert (H2 : 120 <> GDK_KEY_Return) by discriminate.
  assert (H3 : @g_strstrip ascii_text " blur " <> EmptyString
               \/ 120 = GDK_KEY_Down) by (left; discriminate).
  exact (proj1 (@key_release_searches_afresh ascii_text example_env 120
                  {| dialog_is_widget := true; window_width := 400;
                     entry_chars := " blur "; selected_path := None |}
                  300 99
                  {| private_gimp := gimp_en;
                     results_list := [row_of flou_ete 3] |}
                  H1 H2 H3)).
Defined.

(** ** gimp_config_deserialize_return *)

(** X10: on a scanner [gimp_config_deserialize_return] returns TRUE
    exactly when the expected token is the left parenthesis and the next
    token is the end of the input, or a right parenthesis inside a
    nested block; it then leaves the scanner as it is.  Otherwise it
    reads one token and reports it once as unexpected.  Without a
    scanner it returns FALSE. *)
Theorem deserialize_return_spec (s : Scanner) (expected_token : Z)
    (nest_level : gint) :
  (fst (gimp_config_deserialize_return (Some s) expected_token nest_level)
   = true
   <-> expected_token = G_TOKEN_LEFT_PAREN
       /\ (g_scanner_peek_next_token s = G_TOKEN_EOF
           \/ (0 < nest_level
               /\ g_scanner_peek_next_token s = G_TOKEN_RIGHT_PAREN)))
  /\ (fst (gimp_config_deserialize_return (Some s) expected_token nest_level)
      = true ->
      snd (gimp_config_deserialize_return (Some s) expected_token nest_level)
      = Some s)
  /\ (fst (gimp_config_deserialize_return (Some s) expected_token nest_level)
      = false ->
      snd (gimp_config_deserialize_return (Some s) expected_token nest_level)
      = Some {| upcoming := tl (upcoming s);
                scanner_token := g_scanner_peek_next_token s;
                unexpected :=
                  unexpected s
                  ++ [(expected_token, g_scanner_peek_next_token s)] |})
  /\ gimp_config_deserialize_return None expected_token nest_level
     = (false, None).
Proof.
  unfold gimp_config_deserialize_return.
  destruct (Z.eqb_spec expected_token G_TOKEN_LEFT_PAREN) as [He | He];
    cbn [negb].
  - destruct (Z.gtb_spec nest_level 0) as [Hn | Hn];
      destruct (Z.eqb_spec (g_scanner_peek_next_token s) G_TOKEN_RIGHT_PAREN)
        as [Hr | Hr];
      destruct (Z.eqb_spec (g_scanner_peek_next_token s) G_TOKEN_EOF)
        as [Hz | Hz];
      cbn [negb andb fst snd];
      try (rewrite Hr in Hz; discriminate Hz);
      repeat split; try discriminate; try reflexivity; auto;
      try (intros (_ & [? | [? ?]]); (contradiction || lia)).
  - cbn [fst snd]. repeat split; try discriminate; try reflexivity.
    intros [? _]. contradiction.
Qed.

Example deserialize_return_examples :
  gimp_config_deserialize_return
    (Some {| upcoming := [G_TOKEN_RIGHT_PAREN; G_TOKEN_LEFT_PAREN];
             scanner_token := 266; unexpected := [] |})
    G_TOKEN_LEFT_PAREN 0
  = (false,
     Some {| upcoming := [G_TOKEN_LEFT_PAREN];
             scanner_token := G_TOKEN_RIGHT_PAREN;
             unexpected := [(G_TOKEN_LEFT_PAREN, G_TOKEN_RIGHT_PAREN)] |})
  /\ fst (gimp_config_deserialize_return
            (Some {| upcoming := [G_TOKEN_RIGHT_PAREN; G_TOKEN_LEFT_PAREN];
                     scanner_token := 266; unexpected := [] |})
            G_TOKEN_LEFT_PAREN 1) = true
  /\ fst (gimp_config_deserialize_return
            (Some {| upcoming := []; scanner_token := 266;
                     unexpected := [] |})
            266 1) = false.
Proof. repeat split. Qed.

(** ** The default equality on one object *)

Section EqualitySelf.
Context `{ConfigEnv}.

Lemma lookup_own_property (spec : GParamSpec) (v : GValue)
    (ps : list (GParamSpec * GValue)) :
  NoDup (map (fun p => pspec_name (fst p)) ps) ->
  In (spec, v) ps ->
  lookup_property (pspec_name spec) ps = Some v.
Proof.
  induction ps as [|[spec' v'] ps IH]; intros Hnd Hin; [destruct Hin|].
  simpl in Hnd. inversion Hnd as [|? ? Hnotin Hnd']; subst.
  simpl. destruct Hin as [Heq | Hin].
  - injection Heq as -> ->. rewrite String.eqb_refl. reflexivity.
  - destruct (String.eqb_spec (pspec_name spec') (pspec_name spec))
      as [Hname | Hname]; [|apply IH; assumption].
    exfalso. apply Hnotin. rewrite Hname.
    apply (in_map (fun p => pspec_name (fst p)) ps (spec, v)). exact Hin.
Qed.

(** X11: a GimpConfig object with the default [equal] whose property
    names are pairwise different is equal to itself, provided the
    comparison of a value with itself gives 0; the object-valued
    properties are then never followed. *)
Theorem default_equality_reflexive (a : GObject)
    (iface : GimpConfigInterface World) :
  GIMP_CONFIG_GET_INTERFACE a = Some iface ->
  equal iface = default_equal ->
  distinct_property_names a ->
  (forall spec v, In (spec, v) (object_props a) ->
                  g_param_values_cmp spec v v = 0) ->
  gimp_config_is_equal_to (Some a) (Some a) = true
  /\ forall rec,
       equal_loop rec a (object_props a) true = true.
Proof.
  intros Hi Heq Hnames Hcmp.
  assert (Hloop : forall rec, equal_loop rec a (object_props a) true = true).
  { intros rec.
    assert (Hgen : forall ps,
               (forall spec v, In (spec, v) ps ->
                               In (spec, v) (object_props a)) ->
               equal_loop rec a ps true = true).
    { induction ps as [|[spec v] ps IH]; intros Hsub; [reflexivity|].
      cbn [equal_loop negb].
      destruct (has_flag (pspec_flags spec) G_PARAM_READABLE); cbn [negb].
      - assert (Hown : g_object_get_property a spec = v).
        { unfold g_object_get_property.
          rewrite (lookup_own_property spec v (object_props a) Hnames);
            [reflexivity|]. apply Hsub. left. reflexivity. }
        rewrite Hown, (Hcmp spec v) by (apply Hsub; left; reflexivity).
        cbn [Z.eqb negb]. apply IH. intros spec' v' Hin.
        apply Hsub. right. exact Hin.
      - apply IH. intros spec' v' Hin. apply Hsub. right. exact Hin. }
    apply Hgen. auto. }
  split; [|exact Hloop].
  rewrite (gimp_config_is_equal_to_unfold a a iface Hi).
  unfold GIMP_IS_CONFIG. rewrite Hi, Z.eqb_refl, Heq. cbn [negb].
  unfold gimp_config_iface_equal. apply Hloop.
Qed.
End EqualitySelf.

Lemma default_equality_reflexive_witness :
  @gimp_config_is_equal_to example_config
    (Some (ex_config 100 3 7 (Some (ex_leaf 101 5))))
    (Some (ex_config 100 3 7 (Some (ex_leaf 101 5)))) = true.
Proof.
  refine (proj1 (@default_equality_reflexive example_config
                   (ex_config 100 3 7 (Some (ex_leaf 101 5)))
                   (ex_iface false) eq_refl eq_refl _ _)).
  - unfold distinct_property_names. simpl.
    repeat constructor; simpl; intuition discriminate.
  - intros spec v Hin. simpl in Hin.
    destruct Hin as [Heq | [Heq | [Heq | []]]]; injection Heq as <- <-;
      reflexivity.
Defined.

(** ** The other serializers *)

(** X12: [gimp_config_serialize_to_gfile], [_to_stream] and [_to_fd]
    return the same, and leave the same state, when the boolean returned
    by the [serialize] callback is replaced by any other: they report
    what [gimp_config_writer_finish] returns.
    [gimp_config_serialize_to_fd] refuses a descriptor that is not
    positive before it creates a writer or invokes the callback, and
    otherwise passes no footer and no error location to
    [gimp_config_writer_finish]. *)
Theorem serializers_ignore_callback_result (env : ConfigEnv)
    (writers : @WriterEnv env) :
  (forall ser config file header footer data error st,
      @gimp_config_serialize_to_gfile (with_results ser (fun r => r) env)
        (with_results_writers ser (fun r => r) env writers)
        config file header footer data error st
      = @gimp_config_serialize_to_gfile env writers
          config file header footer data error st)
  /\ (forall ser config output header footer data error st,
         @gimp_config_serialize_to_stream (with_results ser (fun r => r) env)
           (with_results_writers ser (fun r => r) env writers)
           config output header footer data error st
         = @gimp_config_serialize_to_stream env writers
             config output header footer data error st)
  /\ (forall ser config fd data st,
         @gimp_config_serialize_to_fd (with_results ser (fun r => r) env)
           (with_results_writers ser (fun r => r) env writers)
           config fd data st
         = @gimp_config_serialize_to_fd env writers config fd data st)
  /\ (forall config fd data st,
         fd <= 0 ->
         @gimp_config_serialize_to_fd env writers config fd data st
         = Returns false st)
  /\ (forall o iface fd data st,
         GIMP_CONFIG_GET_INTERFACE o = Some iface ->
         0 < fd ->
         @gimp_config_serialize_to_fd env writers (Some o) fd data st
         = match gimp_config_writer_new_fd fd (world st) with
           | (None, w1) => Returns false {| world := w1; calls := calls st |}
           | (Some wr, w1) =>
               let w2 := snd (serialize iface o wr data w1) in
               Returns (fst (gimp_config_writer_finish wr None false w2))
                 {| world := snd (gimp_config_writer_finish wr None false w2);
                    calls := calls st ++ [Call_serialize o wr data] |}
           end).
Proof.
  split; [|split; [|split; [|split]]].
  - intros ser config file header footer data error st.
    destruct env, writers. destruct config as [o|]; [|reflexivity].
    cbv beta iota zeta delta
      [gimp_config_serialize_to_gfile with_config GIMP_CONFIG_GET_INTERFACE
       with_clear_error bind read ext call_serialize record_call ret
       with_results with_results_writers World config_iface error_is_set
       gimp_config_writer_new_gfile gimp_config_writer_finish G_IS_FILE].
    destruct (config_iface0 (G_TYPE_FROM_INSTANCE o)) as [i|]; [|reflexivity].
    destruct file as [f|]; [|reflexivity].
    case_if; [|reflexivity].
    case_if; [|reflexivity].
    case_let; case_option; [|reflexivity].
    simpl. case_let. simpl. case_let. reflexivity.
  - intros ser config output header footer data error st.
    destruct env, writers. destruct config as [o|]; [|reflexivity].
    cbv beta iota zeta delta
      [gimp_config_serialize_to_stream with_config GIMP_CONFIG_GET_INTERFACE
       with_clear_error bind read ext call_serialize record_call ret
       with_results with_results_writers World config_iface error_is_set
       gimp_config_writer_new_stream gimp_config_writer_finish
       G_IS_OUTPUT_STREAM].
    destruct (config_iface0 (G_TYPE_FROM_INSTANCE o)) as [i|]; [|reflexivity].
    destruct output as [out|]; [|reflexivity].
    case_if; [|reflexivity].
    case_if; [|reflexivity].
    case_let; case_option; [|reflexivity].
    simpl. case_let. simpl. case_let. reflexivity.
  - intros ser config fd data st.
    destruct env, writers. destruct config as [o|]; [|reflexivity].
    cbv beta iota zeta delta
      [gimp_config_serialize_to_fd with_config GIMP_CONFIG_GET_INTERFACE
       bind read ext call_serialize record_call ret
       with_results with_results_writers World config_iface
       gimp_config_writer_new_fd gimp_config_writer_finish].
    destruct (config_iface0 (G_TYPE_FROM_INSTANCE o)) as [i|]; [|reflexivity].
    case_if; [|reflexivity].
    case_let; case_option; [|reflexivity].
    simpl. case_let. simpl. case_let. reflexivity.
  - intros config fd data st Hfd.
    unfold gimp_config_serialize_to_fd, with_config.
    destruct config as [o|]; [|reflexivity].
    destruct (GIMP_CONFIG_GET_INTERFACE o); [|reflexivity].
    destruct (Z.gtb_spec fd 0); [lia | reflexivity].
  - intros o iface fd data st Hi Hfd.
    unfold gimp_config_serialize_to_fd.
    rewrite (with_config_valid o iface) by exact Hi.
    destruct (Z.gtb_spec fd 0); [|lia].
    unfold bind at 1. unfold ext at 1.
    destruct (gimp_config_writer_new_fd fd (world st)) as [[wr|] w1];
      [|reflexivity].
    unfold bind. rewrite call_serialize_spec. unfold ext. simpl.
    destruct (gimp_config_writer_finish wr None false
                (snd (serialize iface o wr data w1))). reflexivity.
Qed.

Example serialize_to_fd_examples :
  @gimp_config_serialize_to_fd example_config example_writers
    (Some (ex_leaf 100 3)) 0 0 ex_state = Returns false ex_state
  /\ @gimp_config_serialize_to_fd example_config example_writers
       (Some (ex_leaf 100 3)) 2 0 ex_state
     = Returns true
         {| world := {| ex_error := false; ex_text := "(width 3)";
                        ex_frozen := 0 |};
            calls := [Call_serialize (ex_leaf 100 3) 102 0] |}.
Proof. split; reflexivity. Qed.

(** ** What a search does not do *)

Section SearchSafety.
Context `{GLibText} `{ActionEnv}.

Lemma candidate_of_uninit (keyword : option string)
    (history : list GtkAction) (u1 u2 : gint) (gimp : Gimp)
    (action : GtkAction) :
  candidate_of keyword history u1 gimp action
  = candidate_of keyword history u2 gimp action.
Proof.
  unfold candidate_of.
  destruct (match_keyword_shape action keyword gimp)
    as (b & v & _ & _ & Hshape).
  rewrite !Hshape. destruct b; reflexivity.
Qed.

Lemma candidate_rows_uninit (keyword : option string) (gimp : Gimp)
    (u1 u2 : gint) :
  candidate_rows keyword gimp u1 = candidate_rows keyword gimp u2.
Proof.
  unfold candidate_rows. f_equal.
  induction image_manager_action_groups as [|group groups IH];
    [reflexivity|].
  cbn [flat_map]. rewrite IH. f_equal.
  induction group as [|a group IHg]; [reflexivity|].
  cbn [flat_map]. rewrite IHg, (candidate_of_uninit _ _ u1 u2). reflexivity.
Qed.

(** X13: the list a search builds does not depend on the indeterminate
    initial value of the local [section] of the driver: a section is
    read only after a match has written it. *)
Theorem search_ignores_uninitialised_section (keyword : option string)
    (p : SearchDialog) (u1 u2 : gint) :
  action_search_history_and_actions keyword p u1
  = action_search_history_and_actions keyword p u2.
Proof.
  destruct keyword as [[|c kw]|]; [reflexivity| |].
  - rewrite !history_and_actions_inserts by discriminate.
    rewrite (candidate_rows_uninit _ _ u1 u2). reflexivity.
  - rewrite !history_and_actions_inserts by discriminate.
    rewrite (candidate_rows_uninit _ _ u1 u2). reflexivity.
Qed.

Lemma results_insert_perm (row : Row) (store : list Row) :
  Permutation (results_insert row store) (row :: store).
Proof.
  destruct (results_insert_split row store)
    as (above & below & -> & -> & _).
  apply Permutation_sym, Permutation_middle.
Qed.

Lemma insert_all_perm (rows store : list Row) :
  Permutation (insert_all rows store) (store ++ rows).
Proof.
  unfold insert_all. revert store.
  induction rows as [|r rows IH]; intros store; cbn [fold_left].
  - rewrite app_nil_r. apply Permutation_refl.
  - eapply Permutation_trans; [apply IH|].
    eapply Permutation_trans;
      [apply Permutation_app_tail, results_insert_perm|].
    cbn [app]. apply Permutation_middle.
Qed.

Lemma candidate_of_cases (keyword : option string) (history : list GtkAction)
    (uninit : gint) (gimp : Gimp) (action : GtkAction) :
  candidate_of keyword history uninit gimp action = []
  \/ (is_redundant history (gtk_action_get_name action) = false
      /\ exists s,
           candidate_of keyword history uninit gimp action
           = [row_of action s]).
Proof.
  unfold candidate_of.
  destruct (gimp_action_history_excluded_action _ && _ && _); [auto|].
  destruct (negb _ && negb _); [auto|].
  destruct (action_search_match_keyword action keyword (Some uninit) gimp)
    as [[|] sec]; [|auto].
  destruct (is_redundant history (gtk_action_get_name action)); [auto|].
  destruct (has_label action); [|auto]. right. split; [reflexivity|].
  eexists. reflexivity.
Qed.

Lemma group_candidates_names (keyword : option string)
    (history : list GtkAction) (uninit : gint) (gimp : Gimp)
    (actions : list GtkAction) :
  NoDup (map gtk_action_get_name actions) ->
  NoDup (map row_name
           (flat_map (candidate_of keyword history uninit gimp) actions))
  /\ forall name,
       In name
         (map row_name
            (flat_map (candidate_of keyword history uninit gimp) actions)) ->
       In name (map gtk_action_get_name actions)
       /\ ~ In name (map gtk_action_get_name history).
Proof.
  induction actions as [|a actions IH]; intros Hnd.
  - split; [constructor | intros name []].
  - simpl in Hnd. inversion Hnd as [|? ? Hnotin Hnd']; subst.
    destruct (IH Hnd') as [IHnd IHin]. cbn [flat_map].
    destruct (candidate_of_cases keyword history uninit gimp a)
      as [-> | (Hred & s & ->)]; cbn [app map].
    + split; [exact IHnd|]. intros name Hin.
      destruct (IHin name Hin). split; [right|]; assumption.
    + split.
      * constructor; [|exact IHnd]. intros Hin. apply Hnotin.
        apply (IHin _ Hin).
      * intros name [<- | Hin].
        -- split; [left; reflexivity|]. unfold row_name. simpl.
           intros Hh. apply in_map_iff in Hh. destruct Hh as (h & Hname & Hh).
           unfold is_redundant in Hred.
           assert (Htrue : existsb
                             (fun h0 => String.eqb (gtk_action_get_name h0)
                                          (gtk_action_get_name a))
                             history = true).
           { apply existsb_exists. exists h. split; [exact Hh|].
             apply String.eqb_eq. exact Hname. }
           congruence.
        -- destruct (IHin name Hin). split; [right|]; assumption.
Qed.

Lemma flat_map_groups (f : GtkAction -> list Row)
    (groups : list (list GtkAction)) :
  flat_map (flat_map f) groups = flat_map f (List.concat groups).
Proof.
  induction groups as [|g groups IH]; [reflexivity|].
  cbn [flat_map List.concat]. rewrite flat_map_app, IH. reflexivity.
Qed.

Lemma filter_keeps_distinct (A B : Type) (name : A -> B) (keep : A -> bool)
    (xs : list A) (Hnd : NoDup (map name xs)) :
  NoDup (map name (filter keep xs)).
Proof.
  induction xs as [|a xs IH]; [constructor|].
  simpl in Hnd. inversion Hnd as [|? ? Hnotin Hnd']; subst.
  cbn [filter]. destruct (keep a); [|auto].
  cbn [map]. constructor; [|auto].
  intros Hin. apply Hnotin. apply in_map_iff in Hin.
  destruct Hin as (x & Hx & Hin). apply filter_In in Hin.
  apply in_map_iff. exists x. tauto.
Qed.

(** X14: when no two history actions and no two actions of the groups
    have the same name, a search on the cleared store lists no action
    name twice, and its rows are a rearrangement of its candidates. *)
Theorem search_lists_no_action_twice (keyword : option string)
    (gimp : Gimp) (uninit : gint) :
  keyword <> Some EmptyString ->
  NoDup (map gtk_action_get_name
           (gimp_action_history_search gimp action_search_match_keyword
              keyword)) ->
  NoDup (map gtk_action_get_name (List.concat image_manager_action_groups)) ->
  NoDup (map row_name
           (results_list
              (action_search_history_and_actions keyword (cleared gimp)
                 uninit)))
  /\ Permutation
       (results_list
          (action_search_history_and_actions keyword (cleared gimp) uninit))
       (candidate_rows keyword gimp uninit).
Proof.
  intros Hkw Hhist Hgroups.
  rewrite (history_and_actions_inserts keyword (cleared gimp) uninit Hkw).
  cbn [results_list private_gimp cleared].
  pose proof (insert_all_perm (candidate_rows keyword gimp uninit) [])
    as Hperm.
  cbn [app] in Hperm. split; [|exact Hperm].
  apply (Permutation_NoDup
           (Permutation_map row_name (Permutation_sym Hperm))).
  unfold candidate_rows. rewrite map_app, flat_map_groups.
  destruct (group_candidates_names keyword
              (gimp_action_history_search gimp action_search_match_keyword
                 keyword)
              uninit gimp (List.concat image_manager_action_groups) Hgroups)
    as [Hnd Hin].
  apply NoDup_app; [| exact Hnd |].
  - unfold history_rows. rewrite map_map. unfold row_name. simpl.
    apply filter_keeps_distinct. exact Hhist.
  - intros name Hh Hg. destruct (Hin name Hg) as [_ Hnot]. apply Hnot.
    unfold history_rows in Hh. rewrite map_map in Hh.
    apply in_map_iff in Hh. destruct Hh as (a & <- & Ha).
    apply filter_In in Ha. unfold row_name. simpl.
    apply in_map. tauto.
Qed.
End SearchSafety.

Lemma search_lists_no_action_twice_witness :
  NoDup
    (map row_name
       (results_list
          (@action_search_history_and_actions ascii_text example_env
             (Some "blur") (cleared gimp_en) 99))).
Proof.
  refine (proj1 (@search_lists_no_action_twice ascii_text example_env
                   (Some "blur") gimp_en 99 _ _ _)).
  - discriminate.
  - vm_compute. repeat constructor; simpl; intuition discriminate.
  - vm_compute. repeat constructor; simpl; intuition discriminate.
Defined.

(** ** The deserializers and their callback *)

Section DeserializeCalls.
Context `{ConfigEnv}.

Lemma deserialize_with_scanner_calls (iface : GimpConfigInterface World)
    (o : GObject) (scanner : option GScanner) (data : gpointer)
    (error : bool) (st : State World) :
  calls (outcome_state
           (deserialize_with_scanner iface o scanner data error st))
  = calls st ++ [Call_deserialize o scanner 0 data].
Proof.
  rewrite deserialize_with_scanner_spec. unfold deserialize_outcome.
  destruct (deserialize iface o scanner 0 data
              (g_object_freeze_notify o (world st))) as [[|] w];
    [reflexivity|].
  destruct (negb error || error_is_set _); reflexivity.
Qed.

Lemma with_clear_error_set {A} (fail : A) (k : M World A)
    (st : State World) :
  error_is_set (world st) = true ->
  with_clear_error true fail k st = Returns fail st.
Proof.
  intros Hset. unfold with_clear_error, bind, read. rewrite Hset.
  reflexivity.
Qed.

Ltac scanner_cases o :=
  unfold with_clear_error, bind, read, ext;
  match goal with
  | |- context [negb ?e || negb ?s] => destruct (negb e || negb s)
  end;
  [|left; reflexivity];
  match goal with
  | |- context [let '(_, _) := ?x in _] =>
      let sc := fresh "sc" in
      let w1 := fresh "w" in
      destruct x as [[sc|] w1];
      [right; exists o, (Some sc); split; [reflexivity|];
       rewrite deserialize_with_scanner_calls; reflexivity
      | left; reflexivity]
  end.

(** X15: each of the four deserializers invokes the [deserialize]
    callback at most once, on the config and data it was given and at
    nest level 0, and invokes no other callback; for an invalid config,
    or when an error location is supplied that already holds an error,
    each returns FALSE and leaves the state untouched: no scanner is
    created. *)
Theorem deserializers_call_at_most_once (config : option GObject)
    (data : gpointer) (error : bool) (st : State World) :
  (forall filename,
      at_most_one_deserialize config data st
        (outcome_state
           (gimp_config_deserialize_file config filename data error st)))
  /\ (forall file,
         at_most_one_deserialize config data st
           (outcome_state
              (gimp_config_deserialize_gfile config file data error st)))
  /\ (forall input,
         at_most_one_deserialize config data st
           (outcome_state
              (gimp_config_deserialize_stream config input data error st)))
  /\ (forall text text_len,
         at_most_one_deserialize config data st
           (outcome_state
              (gimp_config_deserialize_string config text text_len data
                 error st)))
  /\ (GIMP_IS_CONFIG config = false
      \/ (error = true /\ error_is_set (world st) = true) ->
      (forall filename,
          gimp_config_deserialize_file config filename data error st
          = Returns false st)
      /\ (forall file,
             gimp_config_deserialize_gfile config file data error st
             = Returns false st)
      /\ (forall input,
             gimp_config_deserialize_stream config input data error st
             = Returns false st)
      /\ (forall text text_len,
             gimp_config_deserialize_string config text text_len data error st
             = Returns false st)).
Proof.
  split; [|split; [|split; [|split]]].
  - intros filename. unfold at_most_one_deserialize,
      gimp_config_deserialize_file, with_config.
    destruct config as [o|]; [|left; reflexivity].
    destruct (GIMP_CONFIG_GET_INTERFACE o) as [iface|]; [|left; reflexivity].
    destruct filename as [name|]; [|left; reflexivity].
    scanner_cases o.
  - intros file. unfold at_most_one_deserialize,
      gimp_config_deserialize_gfile, with_config.
    destruct config as [o|]; [|left; reflexivity].
    destruct (GIMP_CONFIG_GET_INTERFACE o) as [iface|]; [|left; reflexivity].
    destruct file as [f|]; [|left; reflexivity].
    destruct (G_IS_FILE (Some f)); [|left; reflexivity].
    scanner_cases o.
  - intros input. unfold at_most_one_deserialize,
      gimp_config_deserialize_stream, with_config.
    destruct config as [o|]; [|left; reflexivity].
    destruct (GIMP_CONFIG_GET_INTERFACE o) as [iface|]; [|left; reflexivity].
    destruct input as [i|]; [|left; reflexivity].
    destruct (G_IS_INPUT_STREAM (Some i)); [|left; reflexivity].
    scanner_cases o.
  - intros text text_len. unfold at_most_one_deserialize,
      gimp_config_deserialize_string, with_config.
    destruct config as [o|]; [|left; reflexivity].
    destruct (GIMP_CONFIG_GET_INTERFACE o) as [iface|]; [|left; reflexivity].
    destruct (match text with Some _ => true | None => text_len =? 0 end);
      [|left; reflexivity].
    unfold with_clear_error, bind, read, ext.
    destruct (negb error || negb (error_is_set (world st)));
      [|left; reflexivity].
    destruct (gimp_scanner_new_string text text_len error (world st))
      as [sc w1].
    right. exists o, sc. split; [reflexivity|].
    rewrite deserialize_with_scanner_calls. reflexivity.
  - intros Hfail.
    assert (Hcases :
      GIMP_IS_CONFIG config = false
      \/ exists o iface,
           config = Some o /\ GIMP_CONFIG_GET_INTERFACE o = Some iface
           /\ error = true /\ error_is_set (world st) = true).
    { destruct (GIMP_IS_CONFIG config) eqn:Ec; [|left; reflexivity].
      destruct Hfail as [? | [He Hs]]; [discriminate|].
      right. unfold GIMP_IS_CONFIG in Ec. destruct config as [o|];
        [|discriminate].
      destruct (GIMP_CONFIG_GET_INTERFACE o) as [iface|] eqn:Ei;
        [|discriminate].
      exists o, iface. auto. }
    destruct Hcases as [Hno | (o & iface & -> & Hi & -> & Hset)].
    + unfold gimp_config_deserialize_file, gimp_config_deserialize_gfile,
        gimp_config_deserialize_stream, gimp_config_deserialize_string.
      repeat split; intros; apply with_config_invalid; exact Hno.
    + split; [|split; [|split]].
      * intros filename. unfold gimp_config_deserialize_file.
        rewrite (with_config_valid o iface) by exact Hi.
        destruct filename as [name|];
          [apply with_clear_error_set; exact Hset | reflexivity].
      * intros file. unfold gimp_config_deserialize_gfile.
        rewrite (with_config_valid o iface) by exact Hi.
        destruct file as [f|]; [|reflexivity].
        destruct (G_IS_FILE (Some f));
          [apply with_clear_error_set; exact Hset | reflexivity].
      * intros input. unfold gimp_config_deserialize_stream.
        rewrite (with_config_valid o iface) by exact Hi.
        destruct input as [i|]; [|reflexivity].
        destruct (G_IS_INPUT_STREAM (Some i));
          [apply with_clear_error_set; exact Hset | reflexivity].
      * intros text text_len. unfold gimp_config_deserialize_string.
        rewrite (with_config_valid o iface) by exact Hi.
        destruct (match text with Some _ => true | None => text_len =? 0 end);
          [apply with_clear_error_set; exact Hset | reflexivity].
Qed.
End DeserializeCalls.
